(** * venn.ts: the layout core, embedded in Rocq

    A shallow embedding of the geometry kernel (circle intersection areas),
    the vector utilities, the numerical routines (bisection, the Wolfe line
    search in its two versions, Nelder-Mead), the label-anchor and path
    helpers and the colour and filter closures of the chart of venn.ts,
    followed by the properties established about them.

    Numbers.  A JavaScript number is an IEEE-754 binary64 value; the
    operations the program uses on it are collected in the class [Number]
    (arithmetic, comparisons, [Math.sqrt], [Math.abs], [Math.min],
    [Math.max]) and [Trig] ([Math.PI], [Math.acos], [Math.sin], [Math.cos],
    [Math.atan2]).  [Number] has two instances: Rocq's primitive binary64
    floats, on which the program runs and on which its properties are
    stated, and the real numbers, on which the formulas it evaluates are
    studied in exact arithmetic.

    Effects.  Exceptions are values of [Result]: what the program throws,
    and the [TypeError]s of the language (a property of [undefined] read or
    set, an assignment to a [const]).  In-place updates of local variables
    are state passing; arrays handed around by reference are locations of a
    [heap] where a property depends on who observes a write. *)

From Stdlib Require Import Reals Floats ZArith Lra Lia String Ascii DecimalString.
From stdpp Require Import base list.

Set Warnings "-inexact-float".

(** ** Exceptions *)

(** [throw] and the run-time [TypeError]s of JavaScript. *)
Inductive Result (A : Type) : Type :=
| Ok (a : A)
| Throw (msg : string).
Arguments Ok {A} a.
Arguments Throw {A} msg.

Definition bind {A B : Type} (m : Result A) (k : A -> Result B) : Result B :=
  match m with
  | Ok a => k a
  | Throw msg => Throw msg
  end.

Notation "x <- m ;; k" := (bind m (fun x => k))
  (at level 100, m at next level, right associativity).

(** Reading or setting a property of [undefined]. *)
Definition TypeError {A : Type} : Result A :=
  Throw "TypeError: cannot read properties of undefined".

Definition defined {A : Type} (o : option A) : Result A :=
  match o with
  | Some a => Ok a
  | None => TypeError
  end.

(** Assigning to a variable declared with [const]. *)
Definition AssignmentToConstant {A : Type} : Result A :=
  Throw "TypeError: Assignment to constant variable.".

(** ** Numbers *)

Class Number (num : Type) : Type := {
  lit : Z -> num;
  nadd : num -> num -> num;
  nsub : num -> num -> num;
  nmul : num -> num -> num;
  ndiv : num -> num -> num;
  nneg : num -> num;
  nltb : num -> num -> bool;
  nleb : num -> num -> bool;
  neqb : num -> num -> bool;
  Math_sqrt : num -> num;
  Math_abs : num -> num;
  Math_min : num -> num -> num;
  Math_max : num -> num -> num;
}.

Class Trig (num : Type) : Type := {
  Math_PI : num;
  Math_acos : num -> num;
  Math_sin : num -> num;
  Math_cos : num -> num;
  Math_atan2 : num -> num -> num;
}.

Declare Scope num_scope.
Delimit Scope num_scope with num.
Infix "+" := nadd : num_scope.
Infix "-" := nsub : num_scope.
Infix "*" := nmul : num_scope.
Infix "/" := ndiv : num_scope.
Notation "- a" := (nneg a) : num_scope.
Infix "<?" := nltb : num_scope.
Infix "<=?" := nleb : num_scope.
Notation "a >? b" := (nltb b a) (at level 70, only parsing) : num_scope.
Notation "a >=? b" := (nleb b a) (at level 70, only parsing) : num_scope.
Infix "=?" := neqb : num_scope.

(** *** binary64 *)

Definition float_of_Z (z : Z) : float :=
  match z with
  | Z0 => 0%float
  | Zpos _ => of_uint63 (Uint63.of_Z z)
  | Zneg p => (- of_uint63 (Uint63.of_Z (Zpos p)))%float
  end.

(** [Math.min] and [Math.max]: NaN if an argument is, and -0 below +0. *)
Definition float_min (a b : float) : float :=
  if (is_nan a || is_nan b)%bool then nan
  else if (a <? b)%float then a
  else if (b <? a)%float then b
  else if (1 / a <? 0)%float then a else b.

Definition float_max (a b : float) : float :=
  if (is_nan a || is_nan b)%bool then nan
  else if (a <? b)%float then b
  else if (b <? a)%float then a
  else if (0 <? 1 / a)%float then a else b.

#[export] Instance float_Number : Number float := {|
  lit := float_of_Z;
  nadd := PrimFloat.add;
  nsub := PrimFloat.sub;
  nmul := PrimFloat.mul;
  ndiv := PrimFloat.div;
  nneg := PrimFloat.opp;
  nltb := PrimFloat.ltb;
  nleb := PrimFloat.leb;
  neqb := PrimFloat.eqb;
  Math_sqrt := PrimFloat.sqrt;
  Math_abs := PrimFloat.abs;
  Math_min := float_min;
  Math_max := float_max;
|}.

(** *** Real numbers *)

Definition Rltb (a b : R) : bool := if Rlt_dec a b then true else false.
Definition Rleb (a b : R) : bool := if Rle_dec a b then true else false.
Definition Reqb (a b : R) : bool := if Req_dec_T a b then true else false.

#[export] Instance R_Number : Number R := {|
  lit := IZR;
  nadd := Rplus;
  nsub := Rminus;
  nmul := Rmult;
  ndiv := Rdiv;
  nneg := Ropp;
  nltb := Rltb;
  nleb := Rleb;
  neqb := Reqb;
  Math_sqrt := R_sqrt.sqrt;
  Math_abs := Rabs;
  Math_min := Rmin;
  Math_max := Rmax;
|}.

(** The angle of the point [(x, y)], as [Math.atan2 y x] gives it. *)
Definition Ratan2 (y x : R) : R :=
  if Rlt_dec 0 x then atan (y / x)
  else if Rlt_dec x 0 then
    if Rle_dec 0 y then (atan (y / x) + PI)%R else (atan (y / x) - PI)%R
  else if Rlt_dec 0 y then (PI / 2)%R
  else if Rlt_dec y 0 then (- (PI / 2))%R
  else 0%R.

#[export] Instance R_Trig : Trig R := {|
  Math_PI := PI;
  Math_acos := acos;
  Math_sin := sin;
  Math_cos := cos;
  Math_atan2 := Ratan2;
|}.

(** ** Geometry kernel (circleintersection.ts) *)

Section Geometry.
Context {num : Type} {N : Number num} {T : Trig num}.

(** The tolerance [SMALL] is imported from [./consts]. *)
Variable SMALL : num.

Local Open Scope num_scope.

(** A point; an intersection point also carries the indices of the two
    circles it lies on. *)
Record Point2d : Type := mkPoint2d {
  px : num;
  py : num;
  parentIndex : list nat;
}.

Record Circle : Type := mkCircle {
  x : num;
  y : num;
  radius : num;
}.

Record Arc : Type := mkArc {
  arc_circle : Circle;
  width : num;
  p1 : Point2d;
  p2 : Point2d;
}.

Record Stats : Type := mkStats {
  area : num;
  arcArea : num;
  polygonArea : num;
  arcs : list Arc;
  innerPoints : list Point2d;
  intersectionPoints : list Point2d;
}.

(** Anything with an [x] and a [y] is a point to [distance]. *)
Class HasXY (A : Type) : Type := {
  getX : A -> num;
  getY : A -> num;
}.

#[export] Instance Point2d_HasXY : HasXY Point2d := {| getX := px; getY := py |}.
#[export] Instance Circle_HasXY : HasXY Circle := {| getX := x; getY := y |}.

Definition point (vx vy : num) : Point2d :=
  {| px := vx; py := vy; parentIndex := [] |}.

(** euclidean distance between two points *)
Definition distance {A B : Type} `{HasXY A} `{HasXY B} (p1 : A) (p2 : B) : num :=
  Math_sqrt ((getX p1 - getX p2) * (getX p1 - getX p2)
             + (getY p1 - getY p2) * (getY p1 - getY p2)).

(** Circular segment area. *)
Definition circleArea (r width : num) : num :=
  r * r * Math_acos (lit 1 - width / r)
  - (r - width) * Math_sqrt (width * (lit 2 * r - width)).

(** The overlap area of two circles of radius r1 and r2 whose centers are
    separated by distance d. *)
Definition circleOverlap (r1 r2 d : num) : num :=
  if d >=? r1 + r2 then lit 0
  else if d <=? Math_abs (r1 - r2) then
    let r := Math_min r1 r2 in
    Math_PI * r * r
  else
    let w1 := r1 - (d * d - r2 * r2 + r1 * r1) / (lit 2 * d) in
    let w2 := r2 - (d * d - r1 * r1 + r2 * r2) / (lit 2 * d) in
    circleArea r1 w1 + circleArea r2 w2.

Definition circleCircleIntersection (p1 p2 : Circle) : list Point2d :=
  let d := distance p1 p2 in
  let r1 := radius p1 in
  let r2 := radius p2 in
  let tooFar := d >=? r1 + r2 in
  let selfContained := d <=? Math_abs (r1 - r2) in
  if (tooFar || selfContained)%bool then []
  else
    let a := (r1 * r1 - r2 * r2 + d * d) / (lit 2 * d) in
    let h := Math_sqrt (r1 * r1 - a * a) in
    let x0 := x p1 + (a * (x p2 - x p1)) / d in
    let y0 := y p1 + (a * (y p2 - y p1)) / d in
    let rx := - (y p2 - y p1) * (h / d) in
    let ry := - (x p2 - x p1) * (h / d) in
    [ point (x0 + rx) (y0 - ry); point (x0 - rx) (y0 + ry) ].

(** Returns the center of a bunch of points *)
Definition getCenter (points : list Point2d) : Point2d :=
  let center :=
    fold_left (fun c p => point (px c + px p) (py c + py p)) points
              (point (lit 0) (lit 0)) in
  let l := lit (Z.of_nat (length points)) in
  point (px center / l) (py center / l).

Definition getSubPolygonArea (p2 p1 : Point2d) : num :=
  (px p2 + px p1) * (py p1 - py p2).

(** returns whether a point is contained by all of a list of circles *)
Definition containedInCircles (pt : Point2d) (circles : list Circle) : bool :=
  let isContained := fun c : Circle => distance pt c <=? radius c + SMALL in
  forallb isContained circles.

(** The pairs [(i, j)], [i < j], in the order of the two nested loops; [i]
    is the index of the head of [circles] in the whole array. *)
Fixpoint getIntersectionPoints_from (i : nat) (circles : list Circle)
  : list Point2d :=
  match circles with
  | [] => []
  | ci :: rest =>
      concat (imap (fun k cj =>
                map (fun p => {| px := px p; py := py p;
                                 parentIndex := [i; (i + 1 + k)%nat] |})
                    (circleCircleIntersection ci cj)) rest)
      ++ getIntersectionPoints_from (S i) rest
  end.

(** Gets all intersection points between a bunch of circles *)
Definition getIntersectionPoints (circles : list Circle) : list Point2d :=
  getIntersectionPoints_from 0 circles.

(** [Array.prototype.sort] with a comparator, of which [before a b] tells
    whether it is negative: a stable insertion sort, in which an element
    stays behind those before it unless the comparator puts it first. *)
Fixpoint insert_sorted {A : Type} (before : A -> A -> bool) (a : A)
  (sorted : list A) : list A :=
  match sorted with
  | [] => [a]
  | b :: rest =>
      if before b a then b :: insert_sorted before a rest
      else a :: b :: rest
  end.

Definition Array_sort {A : Type} (before : A -> A -> bool) (l : list A) : list A :=
  fold_right (insert_sorted before) [] l.

(** [Array.prototype.reduce] without an initial value. *)
Definition Array_reduce {A : Type} (f : A -> A -> A) (l : list A) : Result A :=
  match l with
  | [] => Throw "TypeError: Reduce of empty array with no initial value"
  | a :: rest => Ok (fold_left f rest a)
  end.

(** One round of the loop over [p1.parentIndex]: the arc of circle [idx]
    between [p1] and [p2] is to replace [arc] when it is narrower.  [arc] is
    declared [const arc = null], so the assignment throws. *)
Definition narrowerArc (circles : list Circle) (p1 p2 midPoint : Point2d)
  (arc : option Arc) (idx : nat) : Result (option Arc) :=
  if existsb (Nat.eqb idx) (parentIndex p2) then
    circle <- defined (circles !! idx) ;;
    let a1 := Math_atan2 (px p1 - x circle) (py p1 - y circle) in
    let a2 := Math_atan2 (px p2 - x circle) (py p2 - y circle) in
    let angleDiff := a2 - a1 in
    let angleDiff :=
      if angleDiff <? lit 0 then angleDiff + lit 2 * Math_PI else angleDiff in
    let a := a2 - angleDiff / lit 2 in
    let width := distance midPoint
                   (point (x circle + radius circle * Math_sin a)
                          (y circle + radius circle * Math_cos a)) in
    let width := Math_min width (radius circle * lit 2) in
    let narrower :=
      match arc with
      | None => true
      | Some (mkArc _ oldWidth _ _) => oldWidth >? width
      end in
    if narrower then AssignmentToConstant else Ok arc
  else Ok arc.

Fixpoint narrowestArc (circles : list Circle) (p1 p2 midPoint : Point2d)
  (arc : option Arc) (parents : list nat) : Result (option Arc) :=
  match parents with
  | [] => Ok arc
  | idx :: rest =>
      arc' <- narrowerArc circles p1 p2 midPoint arc idx ;;
      narrowestArc circles p1 p2 midPoint arc' rest
  end.

(** The state of the walk around the sorted inner points. *)
Record Walk : Type := mkWalk {
  walk_p2 : Point2d;
  walk_polygonArea : num;
  walk_arcArea : num;
  walk_arcs : list Arc;
}.

Definition walkStep (circles : list Circle) (w : Walk) (p1 : Point2d)
  : Result Walk :=
  let p2 := walk_p2 w in
  let polygonArea := walk_polygonArea w + getSubPolygonArea p2 p1 in
  let midPoint := point ((px p1 + px p2) / lit 2) ((py p1 + py p2) / lit 2) in
  arc <- narrowestArc circles p1 p2 midPoint None (parentIndex p1) ;;
  match arc with
  | Some arc =>
      Ok {| walk_p2 := p1;
            walk_polygonArea := polygonArea;
            walk_arcArea :=
              walk_arcArea w + circleArea (radius (arc_circle arc)) (width arc);
            walk_arcs := walk_arcs w ++ [arc] |}
  | None =>
      Ok {| walk_p2 := p2;
            walk_polygonArea := polygonArea;
            walk_arcArea := walk_arcArea w;
            walk_arcs := walk_arcs w |}
  end.

Fixpoint walkPoints (circles : list Circle) (w : Walk) (points : list Point2d)
  : Result Walk :=
  match points with
  | [] => Ok w
  | p1 :: rest =>
      w' <- walkStep circles w p1 ;;
      walkPoints circles w' rest
  end.

(** Returns the intersection area of a bunch of circles, and the [stats]
    object as the call leaves it. *)
Definition intersectionArea (circles : list Circle) (stats : option Stats)
  : Result (num * option Stats) :=
  let intersectionPoints := getIntersectionPoints circles in
  let innerPoints :=
    filter (fun p => Is_true (containedInCircles p circles)) intersectionPoints in
  parts <-
    (if (1 <? length innerPoints)%nat then
       let center := getCenter innerPoints in
       let sortedPoints :=
         map snd
           (Array_sort (fun a b => fst b - fst a <? lit 0)
              (map (fun p => (Math_atan2 (px p - px center) (py p - py center), p))
                   innerPoints)) in
       p2 <- defined (last sortedPoints) ;;
       w <- walkPoints circles (mkWalk p2 (lit 0) (lit 0) []) sortedPoints ;;
       Ok (walk_arcArea w, walk_polygonArea w, walk_arcs w)
     else
       smt <- Array_reduce
                (fun prev curr => if radius prev <? radius curr then prev else curr)
                circles ;;
       let smallestIsContained :=
         forallb (fun c => distance c smt >? Math_abs (radius smt - radius c))
                 circles in
       if negb smallestIsContained then Ok (lit 0, lit 0, [])
       else
         let r := radius smt in
         let newArc :=
           {| arc_circle := smt;
              p1 := point (x smt) (y smt + r);
              p2 := point (x smt - SMALL) (y smt + r);
              width := radius smt * lit 2 |} in
         Ok (r * r * Math_PI, lit 0, [newArc])) ;;
  let '(arcArea, polygonArea, arcs) := parts in
  let polygonArea := polygonArea / lit 2 in
  let stats' :=
    match stats with
    | Some _ =>
        Some {| area := arcArea + polygonArea;
                arcArea := arcArea;
                polygonArea := polygonArea;
                arcs := arcs;
                innerPoints := innerPoints;
                intersectionPoints := intersectionPoints |}
    | None => None
    end in
  Ok (arcArea + polygonArea, stats').

End Geometry.

Arguments Point2d num : clear implicits.
Arguments Circle num : clear implicits.
Arguments Arc num : clear implicits.
Arguments Stats num : clear implicits.

(** ** Vector utilities (blas1.ts) *)

(** From here on the program is read on binary64 numbers. *)

Notation "a >? b" := (PrimFloat.ltb b a) (at level 70, only parsing) : float_scope.
Notation "a >=? b" := (PrimFloat.leb b a) (at level 70, only parsing) : float_scope.

(** JavaScript's truthiness of a number: [0], [-0] and [NaN] are falsy. *)
Definition truthy (v : float) : bool :=
  (negb (v =? 0) && negb (is_nan v))%float.

(** [v || d] on numbers. *)
Definition or_default (v d : float) : float := if truthy v then v else d.

(** [o.field || d] when the field may be missing. *)
Definition field_or (o : option float) (d : float) : float :=
  match o with
  | Some v => or_default v d
  | None => d
  end.

Module Blas1.

Local Open Scope float_scope.

Definition zeros (x : nat) : list float := replicate x 0.

Definition zerosM (x y : nat) : list (list float) :=
  map (fun _ => zeros y) (zeros x).

Definition dot (a b : list float) : Result float :=
  let sameSize := Nat.eqb (length a) (length b) in
  if negb sameSize then Throw "must be the same size"
  else
    let zipped := zip a b in
    Ok (fold_left (fun p c => p + fst c * snd c) zipped 0).

Definition norm2 (a : list float) : Result float :=
  d <- dot a a ;; Ok (sqrt d).

(** [v[index]] as an operand of arithmetic: [undefined] behaves as NaN. *)
Definition at_index (v : list float) (index : nat) : float :=
  default nan (v !! index).

(** The array [weightedSum] returns: [ret] only gives it its length. *)
Definition weightedSum (ret : list float) (w1 : float) (v1 : list float)
  (w2 : float) (v2 : list float) : list float :=
  imap (fun index _item => w1 * at_index v1 index + w2 * at_index v2 index) ret.

(** The contents of [ret] after [scale(ret, value, c)]: the loop writes
    [ret[i]] for every index of [value]. *)
Definition scale (ret value : list float) (c : float) : list float :=
  map (fun v => v * c) value ++ drop (length value) ret.

Definition shallowCopy {A : Type} (arr : list A) : list A := arr.

(** *** Arrays by reference

    An array variable holds a location of the heap; a call receives the
    locations of its array arguments. *)

Abbreviation loc := nat (only parsing).
Abbreviation heap := (list (list float)) (only parsing).

Definition alloc (h : heap) (arr : list float) : loc * heap :=
  (length h, h ++ [arr]).

(** [weightedSum(ret, w1, v1, w2, v2)] on the heap: [Array.prototype.map]
    builds a new array, whose location is the value of the call. *)
Definition weightedSum_ref (h : heap) (ret : loc) (w1 : float) (v1 : loc)
  (w2 : float) (v2 : loc) : Result (loc * heap) :=
  aret <- defined (h !! ret) ;;
  av1 <- defined (h !! v1) ;;
  av2 <- defined (h !! v2) ;;
  Ok (alloc h (weightedSum aret w1 av1 w2 av2)).

(** [scale(ret, value, c)] on the heap: the loop assigns to [ret[i]]. *)
Definition scale_ref (h : heap) (ret value : loc) (c : float) : Result heap :=
  aret <- defined (h !! ret) ;;
  avalue <- defined (h !! value) ;;
  Ok (<[ret := scale aret avalue c]> h).

End Blas1.

(** ** Bisection and the Wolfe line search *)

(** An objective with its gradient: [f(x, fxprime)] returns the value at [x]
    and stores the gradient in [fxprime]. *)
Definition Objective : Type := list float -> float * list float.

Module Fmin.
Import Blas1.

Local Open Scope float_scope.

Record BisectParams : Type := mkBisectParams {
  maxiterations : option nat;
  tolerance : option float;
}.

(** The loop of [bisect], with [n] rounds left. *)
Fixpoint bisect_loop (f : float -> float) (fa tolerance : float) (n : nat)
  (a delta : float) : float :=
  match n with
  | O => a + delta
  | S n' =>
      let delta := delta / 2 in
      let mid := a + delta in
      let fmid := f mid in
      let a := if fmid * fa >=? 0 then mid else a in
      if (abs delta <? tolerance) || (fmid =? 0) then mid
      else bisect_loop f fa tolerance n' a delta
  end.

(** finds the zeros of a function, given two starting points (which must
    have opposite signs) *)
Definition bisect (f : float -> float) (a b : float)
  (parameters : option BisectParams) : Result float :=
  let parameters := default (mkBisectParams None None) parameters in
  let maxiterations :=
    match maxiterations parameters with
    | Some (S n) => S n
    | _ => 100%nat
    end in
  let tolerance := field_or (tolerance parameters) 1e-10 in
  let fa := f a in
  let fb := f b in
  let delta := b - a in
  if fa * fb >? 0 then Throw "initial bisect points must have opposite signs"
  else if fa =? 0 then Ok a
  else if fb =? 0 then Ok b
  else Ok (bisect_loop f fa tolerance maxiterations a delta).

(** The bracket after [k] halvings, as a pair of its left end [a] and its
    width [delta]: the next midpoint replaces [a] when [f] has there the sign
    it has at the first [a]. *)
Fixpoint bracket (f : float -> float) (fa : float) (k : nat) (a delta : float)
  : float * float :=
  match k with
  | O => (a, delta)
  | S k' =>
      let delta := delta / 2 in
      let mid := a + delta in
      bracket f fa k' (if f mid * fa >=? 0 then mid else a) delta
  end.

(** The midpoint tried in round [k] (from 0), and whether that round ends
    the search: the halved width is below the tolerance, or the midpoint is
    a root. *)
Definition midpoint (f : float -> float) (fa : float) (k : nat) (a delta : float)
  : float :=
  let b := bracket f fa k a delta in fst b + snd b / 2.

Definition stops (f : float -> float) (fa tolerance : float) (k : nat)
  (a delta : float) : bool :=
  let width := snd (bracket f fa k a delta) in
  (abs (width / 2) <? tolerance) || (f (midpoint f fa k a delta) =? 0).

Record ConjugateGradientPoint : Type := mkPoint {
  x : list float;
  fx : float;
  fxprime : list float;
}.

(** [phi = next.fx = f(next.x, next.fxprime)]: the value, and [next] with
    its new [fx] and gradient. *)
Definition evaluate (f : Objective) (next : ConjugateGradientPoint)
  : float * ConjugateGradientPoint :=
  let '(phi, gradient) := f (x next) in
  (phi, {| x := x next; fx := phi; fxprime := gradient |}).

(** Which [return] ended a line search (ghost): a trial step passed both
    tests, [zoom] ran out of rounds, or the outer loop did. *)
Inductive Exit : Type :=
| Accepted
| ZoomExhausted
| DoublingExhausted.

(** What a line search hands back: the step [a], [next] as it leaves it,
    and how it ended. *)
Record Search : Type := mkSearch {
  step : float;
  found : ConjugateGradientPoint;
  exit : Exit;
}.

Section LineSearch.
Variables (f : Objective) (pk : list float) (current : ConjugateGradientPoint).
Variables (phi0 phiPrime0 c1 c2 : float).

(** [zoom], with [n] rounds left. *)
Fixpoint zoom (n : nat) (next : ConjugateGradientPoint)
  (a_lo a_high phi_lo : float) : Result Search :=
  match n with
  | O => Ok (mkSearch 0 next ZoomExhausted)
  | S n' =>
      let a := (a_lo + a_high) / 2 in
      let _ := weightedSum (x next) 1 (x current) a pk in
      let '(phi, next) := evaluate f next in
      phiPrime <- dot (fxprime next) pk ;;
      if (phi >? phi0 + c1 * a * phiPrime0) || (phi >=? phi_lo) then
        zoom n' next a_lo a phi_lo
      else if abs phiPrime <=? - c2 * phiPrime0 then Ok (mkSearch a next Accepted)
      else
        let a_high := if phiPrime * (a_high - a_lo) >=? 0 then a_lo else a_high in
        zoom n' next a a_high phi
  end.

(** The outer loop at round [iteration], with [n] rounds left. *)
Fixpoint wolfeLoop (n iteration : nat) (next : ConjugateGradientPoint)
  (a a0 phi_old : float) : Result Search :=
  match n with
  | O => Ok (mkSearch a next DoublingExhausted)
  | S n' =>
      let _ := weightedSum (x next) 1 (x current) a pk in
      let '(phi, next) := evaluate f next in
      phiPrime <- dot (fxprime next) pk ;;
      if (phi >? phi0 + c1 * a * phiPrime0)
         || (negb (Nat.eqb iteration 0) && (phi >=? phi_old)) then
        zoom 16 next a0 a phi_old
      else if abs phiPrime <=? - c2 * phiPrime0 then Ok (mkSearch a next Accepted)
      else if phiPrime >=? 0 then zoom 16 next a a0 phi
      else wolfeLoop n' (S iteration) next (a * 2) a phi
  end.

End LineSearch.

(** searches along line 'pk' for a point that satifies the wolfe conditions;
    returns the step size taken. *)
Definition wolfeLineSearch (f : Objective) (pk : list float)
  (current next : ConjugateGradientPoint) (a : float) (c1 c2 : option float)
  : Result Search :=
  let phi0 := fx current in
  phiPrime0 <- dot (fxprime current) pk ;;
  let a0 := 0 in
  let a := or_default a 1 in
  let c1 := field_or c1 1e-6 in
  let c2 := field_or c2 0.1 in
  wolfeLoop f pk current phi0 phiPrime0 c1 c2 10 0 next a a0 phi0.

(** A step is accepted when the value found does not exceed the
    sufficient-decrease bound and the slope passes the curvature test. *)
Definition accepted (pk : list float) (phi0 phiPrime0 c1 c2 : float)
  (r : Search) : Prop :=
  exists phiPrime,
    dot (fxprime (found r)) pk = Ok phiPrime
    /\ (fx (found r) >? phi0 + c1 * step r * phiPrime0) = false
    /\ (abs phiPrime <=? - c2 * phiPrime0) = true.

(** *** The rounds of the outer loop

    [weightedSum] stores nothing in [next.x] (it returns a new array), so
    every round evaluates the objective at the same point: [phi] and
    [phiPrime] are the value and the slope there, and only the trial step
    changes from round to round. *)

(** The trial step of round [k]: the first step doubled [k] times. *)
Definition trial (a : float) (k : nat) : float := Nat.iter k (fun a => a * 2) a.

(** The test that sends round [k] into [zoom]; [phi_old] is the value of
    the round before, which is [phi] again. *)
Definition enters (phi phi0 phiPrime0 c1 a : float) (k : nat) : bool :=
  (phi >? phi0 + c1 * trial a k * phiPrime0)
  || (negb (Nat.eqb k 0) && (phi >=? phi)).

(** The curvature test. *)
Definition curvature (phiPrime phiPrime0 c2 : float) : bool :=
  abs phiPrime <=? - c2 * phiPrime0.

(** Round [k] passes on to the next round: it neither enters [zoom] (by
    either test) nor accepts its step. *)
Definition passes (phi phiPrime phi0 phiPrime0 c1 c2 a : float) (k : nat) : bool :=
  negb (enters phi phi0 phiPrime0 c1 a k)
  && negb (curvature phiPrime phiPrime0 c2)
  && negb (phiPrime >=? 0).

End Fmin.

(** ** Arrays with holes *)

(** An array with holes: [new Array(n)] has [n] of them, and
    [Array.prototype.map] calls its callback on the elements that are
    there, leaving the holes. *)
Definition Array_new {A : Type} (n : nat) : list (option A) := replicate n None.

(** [arr.map(callback)] for a callback that assigns to variables [S] of the
    enclosing function. *)
Fixpoint Array_map_st {S A B : Type} (callback : S -> A -> Result (S * B))
  (s : S) (arr : list (option A)) : Result (S * list (option B)) :=
  match arr with
  | [] => Ok (s, [])
  | None :: rest =>
      r <- Array_map_st callback s rest ;;
      Ok (fst r, None :: snd r)
  | Some a :: rest =>
      r1 <- callback s a ;;
      r <- Array_map_st callback (fst r1) rest ;;
      Ok (fst r, Some (snd r1) :: snd r)
  end.

(** ** The rewritten line search (bigRewrites.ts) *)

Module BigRewrites.
Import Blas1.

Local Open Scope float_scope.

Record ConjugateGradientPoint : Type := mkPoint {
  arguments : list float;
  fx : float;
  fxprime : list float;
  alpha : option float;
}.

Definition evaluate (f : Objective) (next : ConjugateGradientPoint)
  : float * ConjugateGradientPoint :=
  let '(phi, gradient) := f (arguments next) in
  (phi, {| arguments := arguments next; fx := phi; fxprime := gradient;
           alpha := alpha next |}).

Section LineSearch.
Variables (f : Objective) (pk : list float) (current : ConjugateGradientPoint).
Variables (phi0 phiPrime0 c1 c2 : float).

Fixpoint zoom (n : nat) (next : ConjugateGradientPoint)
  (a_lo a_high phi_lo : float) : Result (float * ConjugateGradientPoint) :=
  match n with
  | O => Ok (0, next)
  | S n' =>
      let optimal_step_size := (a_lo + a_high) / 2 in
      let _ := weightedSum (arguments next) 1 (arguments current)
                 optimal_step_size pk in
      let '(phi, next) := evaluate f next in
      phiPrime <- dot (fxprime next) pk ;;
      if (phi >? phi0 + c1 * optimal_step_size * phiPrime0) || (phi >=? phi_lo)
      then zoom n' next a_lo optimal_step_size phi_lo
      else
        let done := abs phiPrime <=? - c2 * phiPrime0 in
        if done then Ok (optimal_step_size, next)
        else
          let a_high :=
            if phiPrime * (a_high - a_lo) >=? 0 then a_lo else a_high in
          zoom n' next optimal_step_size a_high phi
  end.

Fixpoint wolfeLoop (n iteration : nat) (next : ConjugateGradientPoint)
  (optimal_step_size a0 phi_old : float)
  : Result (float * ConjugateGradientPoint) :=
  match n with
  | O => Ok (optimal_step_size, next)
  | S n' =>
      let _ := weightedSum (arguments next) 1 (arguments current)
                 optimal_step_size pk in
      let '(phi, next) := evaluate f next in
      phiPrime <- dot (fxprime next) pk ;;
      if (phi >? phi0 + c1 * optimal_step_size * phiPrime0)
         || (negb (Nat.eqb iteration 0) && (phi >=? phi_old)) then
        zoom 16 next a0 optimal_step_size phi_old
      else
        let done := abs phiPrime <=? - c2 * phiPrime0 in
        if done then Ok (optimal_step_size, next)
        else if phiPrime >=? 0 then zoom 16 next optimal_step_size a0 phi
        else wolfeLoop n' (S iteration) next (optimal_step_size * 2)
               optimal_step_size phi
  end.

End LineSearch.

Definition wolfeLineSearch (f : Objective) (pk : list float)
  (current next : ConjugateGradientPoint) (optimal_step_size : float)
  (c1 c2 : option float) : Result (float * ConjugateGradientPoint) :=
  let c1 := default 0.000001 c1 in
  let c2 := default 0.1 c2 in
  let phi0 := fx current in
  phiPrime0 <- dot (fxprime current) pk ;;
  let a0 := 0 in
  let optimal_step_size := or_default optimal_step_size 1 in
  wolfeLoop f pk current phi0 phiPrime0 c1 c2 10 0 next optimal_step_size a0 phi0.

End BigRewrites.

(** ** Nelder-Mead (nelderMead.ts) *)

Module NelderMead.
Import Blas1.

Local Open Scope float_scope.

(** The options object: a caller passes only the properties it sets. *)
Record NelderMead2dParameters : Type := mkParameters {
  nonZeroDelta : option float;
  zeroDelta : option float;
  minErrorDelta : option float;
  minTolerance : option float;
  rho : option float;
  chi : option float;
  psi : option float;
  sigma : option float;
  maxIterations : option float;
}.

Definition defaultParameters : NelderMead2dParameters := {|
  nonZeroDelta := Some 1.05;
  zeroDelta := Some 0.001;
  minErrorDelta := Some 1e-6;
  minTolerance := Some 1e-5;
  rho := Some 1;
  chi := Some 2;
  psi := Some (-0.5);
  sigma := Some 0.5;
  maxIterations := None;
|}.

(** A property of [{ ...a, ...b }]: that of [b] if [b] has it. *)
Definition later {A : Type} (a b : option A) : option A :=
  match b with
  | Some v => Some v
  | None => a
  end.

(** [{ ...a, ...b }] *)
Definition spread (a b : NelderMead2dParameters) : NelderMead2dParameters := {|
  nonZeroDelta := later (nonZeroDelta a) (nonZeroDelta b);
  zeroDelta := later (zeroDelta a) (zeroDelta b);
  minErrorDelta := later (minErrorDelta a) (minErrorDelta b);
  minTolerance := later (minTolerance a) (minTolerance b);
  rho := later (rho a) (rho b);
  chi := later (chi a) (chi b);
  psi := later (psi a) (psi b);
  sigma := later (sigma a) (sigma b);
  maxIterations := later (maxIterations a) (maxIterations b);
|}.

(** A destructured property, as an operand of arithmetic. *)
Definition prop (o : option float) : float := default nan o.

(** A vertex of the simplex: the array of its coordinates, with the
    properties [fx] and [id] the program attaches to it. *)
Record SimplexPoint2d : Type := mkSimplexPoint {
  fx : float;
  id : nat;
  coordinates : list float;
}.

Definition Simplex2d : Type := list SimplexPoint2d.

Record Solution : Type := mkSolution {
  value_at_peak : float;
  index_at_peak : SimplexPoint2d;
}.

(** The property [x] of a solution: the object returned has the properties
    [value_at_peak] and [index_at_peak] only. *)
Definition Solution_x (s : Solution) : option (list float) := None.

Definition sortOrder (a b : SimplexPoint2d) : float := fx a - fx b.

Definition sort (simplex : Simplex2d) : Simplex2d :=
  Array_sort (fun a b => sortOrder a b <? 0) simplex.

(** The loop that is to store the vertices after the first one, for the
    coordinates from [i] on.  It sets the properties [coordinates], [fx] and
    [id] of [simplex[i + 1]]: where that index is still a hole of
    [new Array(N + 1)], the first assignment throws. *)
Fixpoint perturbed (f : list float -> float) (nonZeroDelta zeroDelta : float)
  (initialGuess : list float) (i n : nat) (simplex : list (option SimplexPoint2d))
  : Result (list (option SimplexPoint2d)) :=
  match n with
  | O => Ok simplex
  | S n' =>
      let point := shallowCopy initialGuess in
      let point :=
        <[i := if truthy (at_index point i) then at_index point i * nonZeroDelta
               else zeroDelta]> point in
      match simplex !! (i + 1)%nat with
      | Some (Some _) =>
          perturbed f nonZeroDelta zeroDelta initialGuess (S i) n'
            (<[(i + 1)%nat :=
                 Some {| coordinates := point; fx := f point; id := (i + 1)%nat |}]>
               simplex)
      | _ => TypeError
      end
  end.

(** The simplex the loop starts from: [new Array(N + 1)], the initial guess
    stored at index 0, and one vertex per coordinate to follow; the array
    has no hole left if that ends. *)
Definition initialSimplex (f : list float -> float)
  (nonZeroDelta zeroDelta : float) (initialGuess : list float) : Result Simplex2d :=
  let N := length initialGuess in
  let simplex : list (option SimplexPoint2d) := Array_new (N + 1) in
  let simplex :=
    <[0%nat := Some {| coordinates := initialGuess; fx := f initialGuess;
                       id := 0 |}]> simplex in
  simplex <- perturbed f nonZeroDelta zeroDelta initialGuess 0 N simplex ;;
  Ok (omap (fun vertex => vertex) simplex).

(** [updateSimplex(value)]: the coordinates and [fx] of [value] are copied
    into the vertex at index [N]. *)
Definition updateSimplex (N : nat) (simplex : Simplex2d) (value : SimplexPoint2d)
  : Simplex2d :=
  match simplex !! N with
  | Some worst =>
      <[N := {| coordinates :=
                  coordinates value
                  ++ drop (length (coordinates value)) (coordinates worst);
                fx := fx value;
                id := id worst |}]> simplex
  | None => simplex
  end.

Definition maxDiffOf (N : nat) (best second : SimplexPoint2d) : float :=
  fold_left
    (fun maxDiff i =>
       float_max maxDiff
         (abs (at_index (coordinates best) i - at_index (coordinates second) i)))
    (seq 0 N) 0.

Definition centroidOf (N : nat) (simplex : Simplex2d) : list float :=
  map (fun i =>
         fold_left (fun c j => c + at_index (coordinates j) i) (take N simplex) 0
         / float_of_Z (Z.of_nat N))
      (seq 0 N).

(** The reduction: [fx] of every vertex but the first is computed again. *)
Definition reduce (f : list float -> float) (sigma : float) (simplex : Simplex2d)
  : Simplex2d :=
  match simplex with
  | [] => []
  | best :: others =>
      best :: map (fun p =>
                let _ := weightedSum (coordinates p) (1 - sigma)
                           (coordinates best) sigma (coordinates p) in
                {| coordinates := coordinates p; fx := f (coordinates p);
                   id := id p |}) others
  end.

(** *** The rounds of the loop

    The loop runs at most [N * 200] rounds on the simplex that
    [initialSimplex] leaves.  A vertex is read as the array of its
    coordinates carrying [fx] and [id], for [simplex[j][i]] as for
    [simplex[j].coordinates[i]]. *)

Section Loop.
Variable f : list float -> float.
Variable initialGuess : list float.
Variables minErrorDelta minTolerance rho chi psi sigma : float.

Let N : nat := length initialGuess.

(** Whether the test that ends the loop holds of the sorted simplex. *)
Definition converged (simplex : Simplex2d) : Result bool :=
  best <- defined (simplex !! 0%nat) ;;
  second <- defined (simplex !! 1%nat) ;;
  worst <- defined (simplex !! N) ;;
  let maxDiff := maxDiffOf N best second in
  Ok ((abs (fx best - fx worst) <? minErrorDelta) && (maxDiff <? minTolerance)).

(** One round after the test: the simplex it leaves, and whether it ends in
    [break]. *)
Definition step (simplex : Simplex2d) : Result (Simplex2d * bool) :=
  best <- defined (simplex !! 0%nat) ;;
  worst <- defined (simplex !! N) ;;
  secondWorst <- defined (simplex !! (N - 1)%nat) ;;
  let centroid := centroidOf N simplex in
  let reflected := shallowCopy initialGuess in
  let _ := weightedSum reflected (1 + rho) centroid (- rho) (coordinates worst) in
  let reflected := {| coordinates := reflected; fx := f reflected; id := 0 |} in
  if fx reflected <? fx best then
    let expanded := shallowCopy initialGuess in
    let _ := weightedSum expanded (1 + chi) centroid (- chi) (coordinates worst) in
    let expanded := {| coordinates := expanded; fx := f expanded; id := 0 |} in
    if fx expanded <? fx reflected then Ok (updateSimplex N simplex expanded, false)
    else Ok (updateSimplex N simplex reflected, false)
  else if fx reflected >=? fx secondWorst then
    let contracted := shallowCopy initialGuess in
    let '(simplex, shouldReduce) :=
      if fx reflected >? fx worst then
        let _ := weightedSum contracted (1 + psi) centroid (- psi)
                   (coordinates worst) in
        let contracted :=
          {| coordinates := contracted; fx := f contracted; id := 0 |} in
        if fx contracted <? fx worst then (updateSimplex N simplex contracted, false)
        else (simplex, true)
      else
        let _ := weightedSum contracted (1 - psi * rho) centroid (psi * rho)
                   (coordinates worst) in
        let contracted :=
          {| coordinates := contracted; fx := f contracted; id := 0 |} in
        if fx contracted <? fx reflected then
          (updateSimplex N simplex contracted, false)
        else (simplex, true) in
    if shouldReduce then
      if sigma >=? 1 then Ok (simplex, true)
      else Ok (reduce f sigma simplex, false)
    else Ok (simplex, false)
  else Ok (updateSimplex N simplex reflected, false).

(** The loop from round [iteration], with [n] rounds left: the simplex it
    leaves and the value of [iteration] on leaving. *)
Fixpoint iterate (n iteration : nat) (simplex : Simplex2d)
  : Result (Simplex2d * nat) :=
  match n with
  | O => Ok (simplex, iteration)
  | S n' =>
      let simplex := sort simplex in
      stop <- converged simplex ;;
      if stop then Ok (simplex, iteration)
      else
        r <- step simplex ;;
        let '(simplex, break) := r in
        if break then Ok (simplex, iteration)
        else iterate n' (S iteration) simplex
  end.

End Loop.

(** The variables the destructuring of [{ ...parameters, ...defaultParameters }]
    binds. *)
Definition resolve (parameters : NelderMead2dParameters)
  : NelderMead2dParameters :=
  spread parameters defaultParameters.

(** minimizes a function using the downhill simplex method; the second
    component is the number of rounds the loop completed. *)
Definition nelderMead2d (f : list float -> float) (initialGuess : list float)
  (parameters : NelderMead2dParameters) : Result (Solution * nat) :=
  let resolved := resolve parameters in
  let maxIterations := (length initialGuess * 200)%nat in
  simplex <-
    initialSimplex f (prop (nonZeroDelta resolved)) (prop (zeroDelta resolved))
      initialGuess ;;
  r <- iterate f initialGuess
         (prop (minErrorDelta resolved)) (prop (minTolerance resolved))
         (prop (rho resolved)) (prop (chi resolved)) (prop (psi resolved))
         (prop (sigma resolved)) maxIterations 0 simplex ;;
  let '(simplex, iterations) := r in
  let simplex := sort simplex in
  best <- defined (simplex !! 0%nat) ;;
  Ok ({| value_at_peak := fx best; index_at_peak := best |}, iterations).

End NelderMead.

(** ** Label anchors and circle paths (diagram.ts) *)

(** A number where a point is expected: it has no [x] and no [y], the reads
    give [undefined], and arithmetic on [undefined] gives NaN. *)
#[export] Instance number_HasXY : HasXY float := {|
  getX := fun _ => nan;
  getY := fun _ => nan;
|}.

Module Diagram.
Import Blas1.

Local Open Scope float_scope.

(** An anchor: a point, flagged [disjoint] when the region has no area. *)
Record TextCentre : Type := mkTextCentre {
  tc_x : float;
  tc_y : float;
  disjoint : bool;
}.

#[export] Instance TextCentre_HasXY : HasXY TextCentre := {|
  getX := tc_x;
  getY := tc_y;
|}.

Section TextCentres.
Context {T : Trig float}.

(** The tolerance [SMALL] of [./consts], used by [intersectionArea]. *)
Variable SMALL : float.

Definition circleMargin {P : Type} `{HasXY float P} (current : P)
  (interior exterior : list (Circle float)) : Result float :=
  first <- defined (interior !! 0%nat) ;;
  let margin := radius first - distance first current in
  let margin :=
    fold_left (fun margin c =>
                 let m := radius c - distance c current in
                 if m <=? margin then m else margin)
              (drop 1 interior) margin in
  let margin :=
    fold_left (fun margin c =>
                 let m := distance c current - radius c in
                 if m <=? margin then m else margin)
              exterior margin in
  Ok margin.

(** The five samples taken around each interior circle. *)
Definition samples (interior : list (Circle float)) : list (Point2d float) :=
  flat_map (fun c =>
              [ point (x c) (y c);
                point (x c + radius c / 2) (y c);
                point (x c - radius c / 2) (y c);
                point (x c) (y c + radius c / 2);
                point (x c) (y c - radius c / 2) ])
           interior.

(** The sample with the biggest margin, the last one among equals. *)
Fixpoint bestSample (interior exterior : list (Circle float))
  (initial : Point2d float) (margin : float) (points : list (Point2d float))
  : Result (Point2d float) :=
  match points with
  | [] => Ok initial
  | p :: rest =>
      m <- circleMargin p interior exterior ;;
      if m >=? margin then bestSample interior exterior p m rest
      else bestSample interior exterior initial margin rest
  end.

(** The check of the solution; [i] is the loop counter the program passes
    to [distance] for the interior circles. *)
Definition valid (ret : TextCentre) (i : float)
  (interior exterior : list (Circle float)) : bool :=
  forallb (fun item => distance ret i >? radius item) interior
  && forallb (fun item => distance ret item <? radius item) exterior.

(** The first part of [computeTextCentre]: the best sample, refined by
    Nelder-Mead.  The program reads the property [x] of the solution and
    indexes it. *)
Definition refine (interior exterior : list (Circle float)) : Result TextCentre :=
  let points := samples interior in
  first <- defined (points !! 0%nat) ;;
  margin <- circleMargin first interior exterior ;;
  initial <- bestSample interior exterior first margin (drop 1 points) ;;
  r <- NelderMead.nelderMead2d
         (fun p =>
            match circleMargin (point (at_index p 0) (at_index p 1))
                    interior exterior with
            | Ok m => -1 * m
            | Throw _ => nan
            end)
         [px initial; py initial]
         {| NelderMead.nonZeroDelta := None; NelderMead.zeroDelta := None;
            NelderMead.minErrorDelta := Some 1e-10;
            NelderMead.minTolerance := None;
            NelderMead.rho := None; NelderMead.chi := None;
            NelderMead.psi := None; NelderMead.sigma := None;
            NelderMead.maxIterations := Some 500 |} ;;
  solution <- defined (NelderMead.Solution_x (fst r)) ;;
  Ok {| tc_x := at_index solution 0; tc_y := at_index solution 1;
        disjoint := false |}.

(** The body of [computeTextCentre]; [again] is the recursive call. *)
Definition computeTextCentre_body
  (again : list (Circle float) -> list (Circle float) -> Result TextCentre)
  (interior exterior : list (Circle float)) : Result TextCentre :=
  ret <- refine interior exterior ;;
  let i := float_of_Z (Z.of_nat (Nat.max 1 (length (samples interior)))) in
  if negb (valid ret i interior exterior) then
    if Nat.eqb (length interior) 1 then
      c <- defined (interior !! 0%nat) ;;
      Ok {| tc_x := x c; tc_y := y c; disjoint := false |}
    else
      let areaStats :=
        {| area := 0; arcArea := 0; polygonArea := 0; arcs := [];
           innerPoints := []; intersectionPoints := [] |} in
      r <- intersectionArea SMALL interior (Some areaStats) ;;
      areaStats <- defined (snd r) ;;
      match arcs areaStats with
      | [] => Ok {| tc_x := 0; tc_y := -1000; disjoint := true |}
      | [arc] =>
          Ok {| tc_x := x (arc_circle arc); tc_y := y (arc_circle arc);
                disjoint := false |}
      | _ =>
          if negb (Nat.eqb (length exterior) 0) then again interior []
          else
            let c := getCenter (map (fun a => p1 a) (arcs areaStats)) in
            Ok {| tc_x := px c; tc_y := py c; disjoint := false |}
      end
  else Ok ret.


End TextCentres.

(** *** Paths *)

Section Paths.

(** [String(v)] for a number, as [Array.prototype.join] applies it, and the
    global [parseFloat]. *)
Variable toString : float -> string.
Variable parseFloat : string -> float.

Definition newline : string := String (ascii_of_nat 10) EmptyString.

(** [ret.join(" ")] *)
Definition join (tokens : list string) : string := String.concat " " tokens.

(** [path.split(" ")] *)
Fixpoint split (path : string) : list string :=
  match path with
  | EmptyString => [EmptyString]
  | String c rest =>
      if Ascii.eqb c " " then EmptyString :: split rest
      else
        match split rest with
        | token :: tokens => String c token :: tokens
        | [] => [String c EmptyString]
        end
  end.

Definition circlePath (c : Circle float) : string :=
  let radius := radius c in
  let ret := [] in
  let ret := ret ++ [(newline ++ "M")%string; toString (x c); toString (y c)] in
  let ret := ret ++ [(newline ++ "m")%string; toString (- radius); toString 0] in
  let ret := ret ++ [(newline ++ "a")%string; toString radius; toString radius;
                     toString 0; toString 1; toString 0;
                     toString (radius * 2); toString 0] in
  let ret := ret ++ [(newline ++ "a")%string; toString radius; toString radius;
                     toString 0; toString 1; toString 0;
                     toString (- radius * 2); toString 0] in
  join ret.

(** [parseFloat(tokens[k])]; a missing token parses to NaN. *)
Definition parseToken (tokens : list string) (k : nat) : float :=
  match tokens !! k with
  | Some token => parseFloat token
  | None => nan
  end.

(** inverse of the circlePath function, returns a circle object from an svg
    path *)
Definition circleFromPath (path : string) : Circle float :=
  let tokens := split path in
  {| x := parseToken tokens 1;
     y := parseToken tokens 2;
     radius := - parseToken tokens 4 |}.

End Paths.

(** A token without a blank. *)
Fixpoint no_space (s : string) : bool :=
  match s with
  | EmptyString => true
  | String c rest => negb (Ascii.eqb c " ") && no_space rest
  end.

(** A number is written faithfully when its text has no blank and reads
    back as the number. *)
Definition faithful (toString : float -> string) (parseFloat : string -> float)
  (v : float) : Prop :=
  no_space (toString v) = true /\ (parseFloat (toString v) =? v) = true.

(** *** The path of an intersection area *)

Section AreaPaths.
Context {T : Trig float}.
Variable SMALL : float.
Variable toString : float -> string.

(** One round of the loop over the arcs: the eight items it pushes. *)
Definition arcTo (ret : list string) (arc : Arc float) : list string :=
  let r := radius (arc_circle arc) in
  let wide := width arc >? r in
  ret ++ [(newline ++ "A")%string; toString r; toString r; toString 0;
          toString (if wide then 1 else 0); toString 1;
          toString (px (p1 arc)); toString (py (p1 arc))].

(** returns a svg path of the intersection area of a bunch of circles.
    The object [stats] starts empty; the call to [intersectionArea] assigns
    every property of it that is read here. *)
Definition intersectionAreaPath (circles : list (Circle float)) : Result string :=
  let stats :=
    {| area := nan; arcArea := nan; polygonArea := nan; arcs := [];
       innerPoints := []; intersectionPoints := [] |} in
  r <- intersectionArea SMALL circles (Some stats) ;;
  stats <- defined (snd r) ;;
  let arcs := arcs stats in
  match arcs with
  | [] => Ok "M 0 0"%string
  | [arc] => Ok (circlePath toString (arc_circle arc))
  | first :: _ =>
      let ret := [(newline ++ "M")%string;
                  toString (px (p2 first)); toString (py (p2 first))] in
      Ok (join (fold_left arcTo arcs ret))
  end.

End AreaPaths.

(** *** Circles that lie within others *)

(** A dictionary: the own properties of an object, in the order in which
    [for ... in] enumerates them. The keys of an object are distinct. *)
Definition Dict (A : Type) : Type := list (string * A).

(** [dict[key]] *)
Definition get {A : Type} (key : string) (dict : Dict A) : option A :=
  snd <$> find (fun entry => String.eqb (fst entry) key) dict.

(** [ret[key].push(value)], for a key that [ret] has. *)
Definition push (key value : string) (ret : Dict (list string))
  : Dict (list string) :=
  map (fun entry =>
         if String.eqb (fst entry) key then (fst entry, snd entry ++ [value])
         else entry)
      ret.

(** The body of the inner loop, for the circles [a = circles[circleids[i]]]
    and [b = circles[circleids[j]]], each with its id. *)
Definition overlapStep (a : string * Circle float) (ret : Dict (list string))
  (b : string * Circle float) : Dict (list string) :=
  let d := distance (snd a) (snd b) in
  if d + radius (snd b) <=? radius (snd a) + 1e-10 then push (fst b) (fst a) ret
  else if d + radius (snd a) <=? radius (snd b) + 1e-10 then
    push (fst a) (fst b) ret
  else ret.

(** The two nested loops, from the circle at the head of [circles] on:
    [i] runs over the circles and [j] over those after [i]. *)
Fixpoint overlapLoop (circles : Dict (Circle float)) (ret : Dict (list string))
  : Dict (list string) :=
  match circles with
  | [] => ret
  | a :: rest => overlapLoop rest (fold_left (overlapStep a) rest ret)
  end.

(** given a dictionary of {setid : circle}, returns a dictionary of setid to
    list of circles that completely overlap it. The first loop gives every
    id the empty list, so that every [push] finds its list. *)
Definition getOverlappingCircles (circles : Dict (Circle float))
  : Dict (list string) :=
  let ret := map (fun entry => (fst entry, [])) circles in
  overlapLoop circles ret.

(** [b] lies within [a], up to the tolerance; [a] is enumerated first. *)
Definition within (a b : Circle float) : bool :=
  distance a b + radius b <=? radius a + 1e-10.

(** [a] lies within [b], and [b] not within [a]; [a] is enumerated first. *)
Definition around (a b : Circle float) : bool :=
  negb (within a b) && (distance a b + radius a <=? radius b + 1e-10).

(** [x] is to be listed for [k]: of two circles, [ea] enumerated before
    [eb], either [k] is [eb], [x] is [ea] and [eb] lies within [ea], or [k]
    is [ea], [x] is [eb] and [ea] lies within [eb] only. *)
Definition listed (circles : Dict (Circle float)) (k x : string) : Prop :=
  exists (p q : nat) (ea eb : string * Circle float),
    (p < q)%nat /\ circles !! p = Some ea /\ circles !! q = Some eb
    /\ ((k = fst eb /\ x = fst ea /\ within (snd ea) (snd eb) = true)
        \/ (k = fst ea /\ x = fst eb /\ around (snd ea) (snd eb) = true)).

(** The signed distances from [current] to the boundaries of the circles:
    positive inside an interior circle and outside an exterior one. *)
Definition margins {P : Type} `{HasXY float P} (current : P)
  (interior exterior : list (Circle float)) : list float :=
  map (fun c => radius c - distance c current) interior
  ++ map (fun c => distance c current - radius c) exterior.

End Diagram.

(** ** Inputs used in the examples below *)

Module Inputs.

Local Open Scope float_scope.

Definition unitCircle : Circle float := mkCircle 0 0 1.
Definition farCircle : Circle float := mkCircle 5 0 1.

(** A circle that crosses [unitCircle]. *)
Definition nearCircle : Circle float := mkCircle 1 0 1.

(** An objective that is NaN everywhere, with gradient 1. *)
Definition undefinedObjective : Objective := fun _ => (nan, [1]).

Definition start : Fmin.ConjugateGradientPoint := Fmin.mkPoint [0] 0 [1].

(** A positive constant function whose square underflows. *)
Definition tiny (_ : float) : float := 1e-200.

(** Whole numbers written in decimal, as [String] and [parseFloat] treat
    them. *)
Definition Z_of_float (v : float) : Z :=
  match Prim2SF v with
  | S754_finite s m e =>
      let z := Z.shiftl (Zpos m) e in
      if s then (- z)%Z else z
  | _ => 0%Z
  end.

Definition decimal (v : float) : string :=
  NilZero.string_of_int (Z.to_int (Z_of_float v)).

Definition parseDecimal (s : string) : float :=
  match NilZero.int_of_string s with
  | Some i => float_of_Z (Z.of_int i)
  | None => nan
  end.

Definition circle345 : Circle float := mkCircle 3 (-4) 5.

(** [Math.PI], with stand-ins for the functions of [Math]: for inputs on
    which the program calls none of them. *)
Definition mathConstants : Trig float :=
  {| Math_PI := 3.141592653589793;
     Math_acos := fun _ => nan;
     Math_sin := fun _ => nan;
     Math_cos := fun _ => nan;
     Math_atan2 := fun _ _ => nan |}.

(** Two circles, one within the other. *)
Definition big : Circle float := mkCircle 0 0 5.
Definition small : Circle float := mkCircle 1 0 1.


End Inputs.

(** ** The overlap of two circles, in exact arithmetic *)

Section RealLens.
Local Open Scope R_scope.

(** *** The lens of two circles, over the reals *)

(** The signed distance from the centre of the circle of radius [r1] to the
    common chord, for centres [d] apart. *)
Definition chordOffset (r1 r2 d : R) : R :=
  (d * d - r2 * r2 + r1 * r1) / (2 * d).

(** The area of the circle of radius [r] beyond a chord at distance [a]
    from its centre. *)
Definition sector (r a : R) : R :=
  r * r * acos (a / r) - a * R_sqrt.sqrt (r * r - a * a).

Definition lens (r1 r2 d : R) : R :=
  sector r1 (chordOffset r1 r2 d) + sector r2 (chordOffset r2 r1 d).

(** The distance [d], brought into the interval from [lo] to [hi]. *)
Definition clamp (lo hi d : R) : R := Rmax lo (Rmin hi d).

End RealLens.

(** ** Intersection points and their parents *)

Section Crossings.
Context {num : Type} {N : Number num}.

(** [p] names two circles [i < j] of [circles] as its parents, and is one of
    the points [circleCircleIntersection] gives for them. *)
Definition crossing (circles : list (Circle num)) (p : Point2d num) : Prop :=
  exists (i j : nat) (ci cj : Circle num),
    parentIndex p = [i; j] /\ (i < j)%nat
    /\ circles !! i = Some ci /\ circles !! j = Some cj
    /\ In (point (px p) (py p)) (circleCircleIntersection ci cj).

End Crossings.


(** ** The two line searches side by side *)

Section RewrittenPoints.
Local Open Scope float_scope.

(** A point of the rewritten [conjugateGradient], read as a point of the
    first one: [arguments] is [x], and [alpha] is left out. *)
Definition forget (p : BigRewrites.ConjugateGradientPoint)
  : Fmin.ConjugateGradientPoint :=
  {| Fmin.x := BigRewrites.arguments p;
     Fmin.fx := BigRewrites.fx p;
     Fmin.fxprime := BigRewrites.fxprime p |}.

End RewrittenPoints.

Section Searches.
Local Open Scope float_scope.

(** The outcome of a line search of the rewritten version is that of the
    first one: the same step and the same [next], or the same error. *)
Definition agree (big : Result (float * BigRewrites.ConjugateGradientPoint))
  (first : Result Fmin.Search) : Prop :=
  match big, first with
  | Ok (a, next), Ok r => Fmin.step r = a /\ Fmin.found r = forget next
  | Throw msg, Throw msg' => msg = msg'
  | _, _ => False
  end.

End Searches.

(** ** The chart (the closure [VennDiagram]) *)

Module Chart.

Section Objects.

(** The names every object inherits from [Object.prototype]: [key in o]
    holds of them although the object [o] has no such property of its
    own. *)
Variable inherited : string -> bool.

(** *** Colours *)

Definition colourScheme : list string :=
  [ "#1f77b4"; "#ff7f0e"; "#2ca02c"; "#d62728"; "#9467bd";
    "#8c564b"; "#e377c2"; "#7f7f7f"; "#bcbd22"; "#17becf" ]%string.

(** The variables [colourMap] and [colourIndex] of the closure. A value of
    [colourMap] is an element of [colourScheme], or [undefined] ([None]) if
    it was read past its end. *)
Record Palette : Type := mkPalette {
  colourMap : Diagram.Dict (option string);
  colourIndex : nat;
}.

(** What [colours(key)] returns: a value of [colourMap], or the property
    that [colourMap] inherits under [key]. *)
Inductive Looked : Type :=
| Colour (c : option string)
| Inherited.

(** [colours(key)], with the variables of the closure as it leaves them. *)
Definition colours (s : Palette) (key : string) : Looked * Palette :=
  match Diagram.get key (colourMap s) with
  | Some c => (Colour c, s)
  | None =>
      if inherited key then (Inherited, s)
      else
        let ret := colourScheme !! colourIndex s in
        let colourMap := colourMap s ++ [(key, ret)] in
        let colourIndex := (colourIndex s + 1)%nat in
        let colourIndex :=
          if (length colourScheme <=? colourIndex)%nat then 0%nat else colourIndex in
        (Colour ret, {| colourMap := colourMap; colourIndex := colourIndex |})
  end.

(** The closure as [VennDiagram] creates it. *)
Definition freshPalette : Palette := {| colourMap := []; colourIndex := 0 |}.

(** [colours] called on the keys in turn: the values returned, and the
    variables after the last call. *)
Fixpoint paint (s : Palette) (keys : list string) : list Looked * Palette :=
  match keys with
  | [] => ([], s)
  | key :: rest =>
      let '(c, s) := colours s key in
      let '(cs, s) := paint s rest in
      (c :: cs, s)
  end.

(** *** Sets of size 0 *)

(** An area of the input: its sets, named as property keys, and its size. *)
Record Datum : Type := mkDatum {
  sets : list string;
  size : float;
}.

(** The keys [toremove] has after the first pass over the data. *)
Definition toremove (data : list Datum) : list string :=
  flat_map (fun datum =>
              if ((size datum =? 0)%float && Nat.eqb (length (sets datum)) 1)%bool
              then take 1 (sets datum) else [])
           data.

(** [set in toremove] *)
Definition removed (data : list Datum) (set : string) : bool :=
  existsb (String.eqb set) (toremove data) || inherited set.

(** handle 0-sized sets by removing from input: the value of [data] after
    the [filter]. *)
Definition withoutEmptySets (data : list Datum) : list Datum :=
  List.filter (fun datum => negb (existsb (removed data) (sets datum))) data.

End Objects.

End Chart.

(** ** Bisection on points (bigRewrites.ts) *)

Module Bisect2d.

Section Coercions.
Local Open Scope float_scope.

(** [String(v)] for a number. *)
Variable toString : float -> string.

(** What the variables [a] and [mid] hold: a point, which is a plain
    object, or the text that [+] makes of one. *)
Inductive Value : Type :=
| Object (p : Point2d float)
| Text (s : string).


(** A value as an operand of [+]: a plain object converts to the text
    [[object Object]]. *)
Definition toText (v : Value) : string :=
  match v with
  | Object _ => "[object Object]"
  | Text s => s
  end.

(** [v + delta]: one operand being a text, the other is converted and
    appended. *)
Definition plus (v : Value) (delta : float) : Value :=
  Text (toText v ++ toString delta).



End Coercions.

End Bisect2d.

(** * Properties *)

(** ** Facts about binary64 *)

Section FloatFacts.
Local Open Scope float_scope.

Lemma Prim2SF_nan : Prim2SF nan = S754_nan.
Proof. reflexivity. Qed.

(** NaN is absorbing for subtraction, and nothing is below it. *)
Lemma sub_nan_r (v : float) : v - nan = nan.
Proof.
  apply Prim2SF_inj. rewrite sub_spec, Prim2SF_nan.
  destruct (Prim2SF v); reflexivity.
Qed.

Lemma ltb_nan_r (v : float) : (v <? nan) = false.
Proof.
  rewrite ltb_spec, Prim2SF_nan. destruct (Prim2SF v); reflexivity.
Qed.

Lemma eqb_zero_inv (v : float) :
  (v =? 0) = true -> exists s, Prim2SF v = S754_zero s.
Proof.
  rewrite FloatAxioms.eqb_spec. change (Prim2SF 0) with (S754_zero false).
  destruct (Prim2SF v) as [s| s | | s m e]; intros H.
  - by exists s.
  - destruct s; discriminate.
  - discriminate.
  - destruct s; discriminate.
Qed.

(** A product with a zero factor is a zero or NaN: never positive. *)
Lemma mul_zero_not_pos_l (v w : float) : (v =? 0) = true -> (0 <? v * w) = false.
Proof.
  intros [s Hs]%eqb_zero_inv.
  rewrite ltb_spec, mul_spec, Hs. change (Prim2SF 0) with (S754_zero false).
  destruct (Prim2SF w) as [s'| s' | | s' m e]; reflexivity.
Qed.

Lemma mul_zero_not_pos_r (v w : float) : (w =? 0) = true -> (0 <? v * w) = false.
Proof.
  intros [s Hs]%eqb_zero_inv.
  rewrite ltb_spec, mul_spec, Hs. change (Prim2SF 0) with (S754_zero false).
  destruct (Prim2SF v) as [s'| s' | | s' m e]; reflexivity.
Qed.

Lemma SFeqb_opp (a b : spec_float) :
  SFeqb a (SFopp b) = true -> SFeqb (SFopp a) b = true.
Proof.
  unfold SFeqb.
  destruct a as [s| s | | s m e], b as [s'| s' | | s' m' e'];
    simpl; try discriminate; try done.
  all: destruct s, s'; simpl; try discriminate; try done.
  all: destruct (e ?= e')%Z; try discriminate; try done.
  all: destruct (PosDef.Pos.compare_cont Eq m m'); simpl; try discriminate; done.
Qed.

(** [a === -r] gives [-a === r]. *)
Lemma eqb_opp_swap (a r : float) : (a =? - r) = true -> (- a =? r) = true.
Proof.
  rewrite !FloatAxioms.eqb_spec, !opp_spec. apply SFeqb_opp.
Qed.

End FloatFacts.

(** ** Geometry kernel *)

Section IntersectionAreaFacts.
Context {num : Type} {N : Number num} {T : Trig num}.
Variable SMALL : num.

(** The smallest circle is one of the circles. *)
Lemma fold_smallest_In (cs : list (Circle num)) (c : Circle num) :
  In (fold_left (fun prev curr => if nltb (radius prev) (radius curr) then prev else curr)
        cs c) (c :: cs).
Proof.
  revert c. induction cs as [|c' cs IH]; intros c; simpl; [by left|].
  destruct (nltb (radius c) (radius c')).
  - destruct (IH c) as [<- | Hin]; [by left | by right; right].
  - right. apply IH.
Qed.

(** When fewer than two intersection points lie in all the circles, the
    area is [0] or that of the smallest circle, according to the test
    [distance(c, smt) > |smt.radius - c.radius|] over all circles [c]. *)
Lemma intersectionArea_few_points (circles : list (Circle num)) :
  (1 <? length (filter (fun p => Is_true (containedInCircles SMALL p circles))
                  (getIntersectionPoints circles)))%nat = false ->
  forall smt,
    Array_reduce (fun prev curr => if nltb (radius prev) (radius curr) then prev else curr)
      circles = Ok smt ->
    intersectionArea SMALL circles None =
      if forallb (fun c => nltb (Math_abs (nsub (radius smt) (radius c))) (distance c smt))
           circles
      then Ok (nadd (nmul (nmul (radius smt) (radius smt)) Math_PI)
                 (ndiv (lit 0) (lit 2)), None)
      else Ok (nadd (lit 0) (ndiv (lit 0) (lit 2)), None).
Proof.
  intros Hfew smt Hsmt. unfold intersectionArea. cbv zeta.
  rewrite Hfew, Hsmt. cbn [bind].
  destruct (forallb _ circles); reflexivity.
Qed.

End IntersectionAreaFacts.

Section RealGeometry.
Variable SMALL : R.
Local Open Scope R_scope.

(** In exact arithmetic no circle passes the test against itself. *)
Lemma R_self_test (c : Circle R) :
  nltb (Math_abs (nsub (radius c) (radius c))) (distance c c) = false.
Proof.
  unfold distance. cbn.
  replace ((x c - x c) * (x c - x c) + (y c - y c) * (y c - y c)) with 0 by ring.
  replace (radius c - radius c) with 0 by ring.
  rewrite sqrt_0, Rabs_R0. unfold Rltb. destruct (Rlt_dec 0 0); [lra | reflexivity].
Qed.

Lemma R_smallest_never_contained (circles : list (Circle R)) (smt : Circle R) :
  In smt circles ->
  forallb (fun c => nltb (Math_abs (nsub (radius smt) (radius c))) (distance c smt))
    circles = false.
Proof.
  intros Hin. apply not_true_is_false. intros Hall.
  rewrite forallb_forall in Hall. specialize (Hall smt Hin).
  by rewrite R_self_test in Hall.
Qed.

(** In exact arithmetic, the branch for fewer than two inner points
    returns 0 for every non-empty list of circles. *)
Lemma R_few_points_zero (c : Circle R) (cs : list (Circle R)) :
  (1 <? length (filter (fun p => Is_true (containedInCircles SMALL p (c :: cs)))
                  (getIntersectionPoints (c :: cs))))%nat = false ->
  intersectionArea SMALL (c :: cs) None = Ok (0, None).
Proof.
  intros Hfew.
  rewrite (intersectionArea_few_points SMALL (c :: cs) Hfew _ eq_refl).
  rewrite R_smallest_never_contained by apply fold_smallest_In.
  cbn. do 2 f_equal. lra.
Qed.

Lemma R_single_circle (c : Circle R) :
  intersectionArea SMALL [c] None = Ok (0, None).
Proof. by apply R_few_points_zero. Qed.

Lemma R_no_intersection (c1 c2 : Circle R) :
  circleCircleIntersection c1 c2 = [] ->
  intersectionArea SMALL [c1; c2] None = Ok (0, None).
Proof.
  intros Hnone. apply R_few_points_zero.
  unfold getIntersectionPoints. cbn [getIntersectionPoints_from imap concat map app].
  by rewrite Hnone.
Qed.

(** Two circles further apart than the sum of their radii: area 0. *)
Lemma R_disjoint_circles (c1 c2 : Circle R) :
  radius c1 + radius c2 < distance c1 c2 ->
  intersectionArea SMALL [c1; c2] None = Ok (0, None).
Proof.
  intros Hfar. apply R_no_intersection.
  unfold circleCircleIntersection. cbv zeta.
  assert (nleb (nadd (radius c1) (radius c2)) (distance c1 c2) = true) as ->; [|done].
  cbn [nleb nadd R_Number]. unfold Rleb. destruct (Rle_dec _ _); [done | lra].
Qed.

(** Two identical circles: area 0 as well, whatever the radius. *)
Lemma R_identical_circles (c : Circle R) :
  intersectionArea SMALL [c; c] None = Ok (0, None).
Proof.
  apply R_no_intersection.
  unfold circleCircleIntersection. cbv zeta.
  assert (nleb (distance c c) (Math_abs (nsub (radius c) (radius c))) = true) as ->.
  { pose proof (R_self_test c) as H. cbn [nltb nleb R_Number] in *.
    unfold Rltb, Rleb in *.
    destruct (Rlt_dec _ _); [discriminate|]. destruct (Rle_dec _ _); [done | lra]. }
  by rewrite orb_true_r.
Qed.

End RealGeometry.

Section FloatGeometry.
Context {T : Trig float}.
Variable SMALL : float.
Import Inputs.

(** C1 (evaluation at the failing input): the intersection area of the
    single circle of radius 1 centred at the origin is computed as 0, not
    as pi. *)
Theorem intersectionArea_single_unit_circle :
  intersectionArea SMALL [unitCircle] None = Ok (0%float, None).
Proof. vm_compute. reflexivity. Qed.

(** C2 (evaluation at the failing input): the intersection area of two
    copies of the unit circle is computed as 0, not as pi; that of two unit
    circles 5 apart is 0. *)
Theorem intersectionArea_identical_unit_circles :
  intersectionArea SMALL [unitCircle; unitCircle] None = Ok (0%float, None)
  /\ intersectionArea SMALL [unitCircle; farCircle] None = Ok (0%float, None).
Proof. split; vm_compute; reflexivity. Qed.

End FloatGeometry.

(** ** The overlap of two circles *)

Section RealAnalysis.
Local Open Scope R_scope.

(** [acos] is continuous on the whole line: it is constant outside
    [[-1, 1]], derivable inside, and at 1 it is squeezed by [cos]. *)
Lemma acos_above (y : R) : 1 <= y -> acos y = 0.
Proof.
  intros Hy. unfold acos.
  destruct (Rle_dec y (-1)); [lra|]. destruct (Rle_dec 1 y); [reflexivity | lra].
Qed.

Lemma acos_below (y : R) : y <= -1 -> acos y = PI.
Proof.
  intros Hy. unfold acos. destruct (Rle_dec y (-1)); [reflexivity | lra].
Qed.

Lemma acos_continuity_at_1 : continuity_pt acos 1.
Proof.
  intros eps Heps.
  pose proof PI_RGT_0 as Hpi.
  set (e := Rmin (eps / 2) PI).
  assert (0 < e) as He by (unfold e; apply Rmin_glb_lt; lra).
  assert (e <= PI) as HePI by apply Rmin_r.
  assert (e < eps) as Heeps.
  { apply Rle_lt_trans with (eps / 2); [apply Rmin_l | lra]. }
  assert (cos e < 1) as Hcos.
  { rewrite <- cos_0. apply cos_decreasing_1; lra. }
  exists (1 - cos e). split; [lra|].
  intros y [_ Hy]. cbn in Hy |- *. unfold Rdist in *. rewrite acos_1.
  destruct (Rle_dec 1 y) as [Hge|Hlt].
  - rewrite acos_above by exact Hge. rewrite Rminus_diag, Rabs_R0. exact Heps.
  - assert (cos e < y) as Hlow.
    { apply Rabs_def2 in Hy. lra. }
    pose proof (COS_bound e) as [Hce _].
    pose proof (acos_bound y) as [Ha0 HaPI].
    assert (acos y < e) as Hsmall.
    { apply cos_decreasing_0; try lra. rewrite cos_acos by lra. exact Hlow. }
    rewrite Rminus_0_r, Rabs_pos_eq by exact Ha0. lra.
Qed.

Lemma acos_continuity (x : R) : continuity_pt acos x.
Proof.
  destruct (Rlt_dec 1 x) as [Hhi|Hhi].
  { apply (continuity_pt_locally_ext (fct_cte 0) acos (x - 1) x); [lra| |].
    - intros y Hy. unfold fct_cte. rewrite acos_above; [reflexivity|].
      unfold Rdist in Hy. apply Rabs_def2 in Hy. lra.
    - apply derivable_continuous_pt. exists 0. apply derivable_pt_lim_const. }
  destruct (Rlt_dec x (-1)) as [Hlo|Hlo].
  { apply (continuity_pt_locally_ext (fct_cte PI) acos (- 1 - x) x); [lra| |].
    - intros y Hy. unfold fct_cte. rewrite acos_below; [reflexivity|].
      unfold Rdist in Hy. apply Rabs_def2 in Hy. lra.
    - apply derivable_continuous_pt. exists 0. apply derivable_pt_lim_const. }
  destruct (Req_dec x 1) as [->|Hne1]; [exact acos_continuity_at_1|].
  destruct (Req_dec x (-1)) as [->|Hne2].
  { apply (continuity_pt_locally_ext
             (fct_cte PI - comp acos (- id))%F acos 1 (-1)); [lra| |].
    - intros y _. unfold minus_fct, fct_cte, comp, opp_fct, id.
      replace (acos y) with (acos (- (- y))) by (by rewrite Ropp_involutive).
      by rewrite (acos_opp (- y)).
    - apply continuity_pt_minus.
      + apply derivable_continuous_pt. exists 0. apply derivable_pt_lim_const.
      + apply continuity_pt_comp.
        * apply continuity_pt_opp. apply derivable_continuous_pt.
          exists 1. apply derivable_pt_lim_id.
        * unfold opp_fct, id. replace (- -1) with 1 by lra.
          exact acos_continuity_at_1. }
  apply derivable_continuous_pt. apply derivable_pt_acos. lra.
Qed.

(** So is the square root, which is 0 on the negative numbers. *)
Lemma sqrt_continuity (x : R) : continuity_pt R_sqrt.sqrt x.
Proof.
  destruct (Rle_dec 0 x) as [Hpos|Hneg]; [by apply continuity_pt_sqrt|].
  apply (continuity_pt_locally_ext (fct_cte 0) R_sqrt.sqrt (- x) x); [lra| |].
  - intros y Hy. unfold fct_cte. symmetry. apply sqrt_neg_0.
    unfold Rdist in Hy. apply Rabs_def2 in Hy. lra.
  - apply derivable_continuous_pt. exists 0. apply derivable_pt_lim_const.
Qed.

End RealAnalysis.

Section RealOverlap.
Local Open Scope R_scope.

Lemma continuity_const (c x : R) : continuity_pt (fct_cte c) x.
Proof. apply derivable_continuous_pt. exists 0. apply derivable_pt_lim_const. Qed.

Lemma continuity_id (x : R) : continuity_pt id x.
Proof. apply derivable_continuous_pt. exists 1. apply derivable_pt_lim_id. Qed.

Ltac continuous :=
  repeat match goal with
    | |- continuity_pt (fct_cte _) _ => apply continuity_const
    | |- continuity_pt id _ => apply continuity_id
    | |- continuity_pt acos _ => apply acos_continuity
    | |- continuity_pt R_sqrt.sqrt _ => apply sqrt_continuity
    | |- continuity_pt (_ + _)%F _ => apply continuity_pt_plus
    | |- continuity_pt (_ - _)%F _ => apply continuity_pt_minus
    | |- continuity_pt (_ * _)%F _ => apply continuity_pt_mult
    | |- continuity_pt (comp _ _) _ => apply continuity_pt_comp
    end.

Lemma sector_continuity (r a : R) : r <> 0 -> continuity_pt (sector r) a.
Proof.
  intros Hr.
  change (sector r)
    with (fct_cte (r * r) * comp acos (id / fct_cte r)
          - id * comp R_sqrt.sqrt (fct_cte (r * r) - id * id))%F.
  continuous. apply continuity_pt_div; [continuous.. | exact Hr].
Qed.

Lemma chordOffset_continuity (r1 r2 d : R) :
  d <> 0 -> continuity_pt (chordOffset r1 r2) d.
Proof.
  intros Hd.
  change (chordOffset r1 r2)
    with ((id * id - fct_cte (r2 * r2) + fct_cte (r1 * r1)) / (fct_cte 2 * id))%F.
  apply continuity_pt_div; [continuous.. |]. unfold mult_fct, fct_cte, id. lra.
Qed.

Lemma lens_continuity (r1 r2 d : R) :
  r1 <> 0 -> r2 <> 0 -> d <> 0 -> continuity_pt (lens r1 r2) d.
Proof.
  intros Hr1 Hr2 Hd.
  change (lens r1 r2)
    with (comp (sector r1) (chordOffset r1 r2)
          + comp (sector r2) (chordOffset r2 r1))%F.
  apply continuity_pt_plus; apply continuity_pt_comp;
    auto using sector_continuity, chordOffset_continuity.
Qed.

(** The program's expression for the segment is [sector]. *)
Lemma circleArea_sector (r a : R) : r <> 0 -> circleArea r (r - a) = sector r a.
Proof.
  intros Hr. unfold circleArea, sector. cbn.
  replace (1 - (r - a) / r) with (a / r) by (field; exact Hr).
  replace (r - (r - a)) with a by ring.
  replace ((r - a) * (2 * r - (r - a))) with (r * r - a * a) by ring.
  reflexivity.
Qed.

(** The three branches of [circleOverlap]. *)
Lemma circleOverlap_far (r1 r2 d : R) : r1 + r2 <= d -> circleOverlap r1 r2 d = 0.
Proof.
  intros H. unfold circleOverlap. cbn. unfold Rleb.
  destruct (Rle_dec (r1 + r2) d); [reflexivity | lra].
Qed.

Lemma circleOverlap_nested (r1 r2 d : R) :
  d < r1 + r2 -> d <= Rabs (r1 - r2) ->
  circleOverlap r1 r2 d = PI * Rmin r1 r2 * Rmin r1 r2.
Proof.
  intros H1 H2. unfold circleOverlap. cbn. unfold Rleb.
  destruct (Rle_dec (r1 + r2) d); [lra|].
  destruct (Rle_dec d (Rabs (r1 - r2))); [reflexivity | lra].
Qed.

Lemma circleOverlap_between (r1 r2 d : R) :
  Rabs (r1 - r2) < d < r1 + r2 ->
  circleOverlap r1 r2 d
  = circleArea r1 (r1 - (d * d - r2 * r2 + r1 * r1) / (2 * d))
    + circleArea r2 (r2 - (d * d - r1 * r1 + r2 * r2) / (2 * d)).
Proof.
  intros [H1 H2]. unfold circleOverlap. cbn -[circleArea]. unfold Rleb.
  destruct (Rle_dec (r1 + r2) d); [lra|].
  destruct (Rle_dec d (Rabs (r1 - r2))); [lra | reflexivity].
Qed.

Lemma circleOverlap_lens (r1 r2 d : R) :
  r1 <> 0 -> r2 <> 0 -> Rabs (r1 - r2) < d < r1 + r2 ->
  circleOverlap r1 r2 d = lens r1 r2 d.
Proof.
  intros Hr1 Hr2 Hd. rewrite circleOverlap_between by exact Hd.
  unfold lens. rewrite <- !circleArea_sector by assumption. reflexivity.
Qed.

End RealOverlap.

Section RealJunctions.
Local Open Scope R_scope.

Lemma sector_full (r : R) : 0 < r -> sector r r = 0.
Proof.
  intros Hr. unfold sector.
  replace (r / r) with 1 by (field; lra).
  replace (r * r - r * r) with 0 by ring.
  rewrite acos_1, sqrt_0. ring.
Qed.

Lemma sector_whole (r : R) : 0 < r -> sector r (- r) = PI * r * r.
Proof.
  intros Hr. unfold sector.
  replace (- r / r) with (-1) by (field; lra).
  replace (r * r - - r * - r) with 0 by ring.
  rewrite acos_below by lra. rewrite sqrt_0. ring.
Qed.

Lemma chordOffset_at_sum (r1 r2 : R) :
  r1 + r2 <> 0 -> chordOffset r1 r2 (r1 + r2) = r1.
Proof. intros H. unfold chordOffset. field. exact H. Qed.

Lemma chordOffset_at_diff (r1 r2 : R) :
  r1 - r2 <> 0 -> chordOffset r1 r2 (r1 - r2) = r1.
Proof. intros H. unfold chordOffset. field. exact H. Qed.

Lemma chordOffset_at_diff' (r1 r2 : R) :
  r1 - r2 <> 0 -> chordOffset r2 r1 (r1 - r2) = - r2.
Proof. intros H. unfold chordOffset. field. exact H. Qed.

Lemma chordOffset_equal (r d : R) : d <> 0 -> chordOffset r r d = d / 2.
Proof. intros H. unfold chordOffset. field. exact H. Qed.

Lemma lens_sym (r1 r2 d : R) : lens r1 r2 d = lens r2 r1 d.
Proof. unfold lens. ring. Qed.

(** The lens vanishes when the circles touch from outside ... *)
Lemma lens_at_sum (r1 r2 : R) : 0 < r1 -> 0 < r2 -> lens r1 r2 (r1 + r2) = 0.
Proof.
  intros H1 H2. unfold lens.
  rewrite chordOffset_at_sum by lra.
  replace (r1 + r2) with (r2 + r1) by ring.
  rewrite chordOffset_at_sum by lra.
  rewrite !sector_full by assumption. ring.
Qed.

(** ... and is the smaller disc when they touch from inside. *)
Lemma lens_at_diff (r1 r2 : R) :
  0 < r2 -> r2 < r1 -> lens r1 r2 (r1 - r2) = PI * r2 * r2.
Proof.
  intros H2 H1. unfold lens.
  rewrite chordOffset_at_diff, chordOffset_at_diff' by lra.
  rewrite sector_full, sector_whole by lra. ring.
Qed.

Lemma lens_equal (r d : R) : d <> 0 -> lens r r d = 2 * sector r (d / 2).
Proof. intros H. unfold lens. rewrite chordOffset_equal by exact H. ring. Qed.

Lemma lens_at_abs_diff (r1 r2 : R) :
  0 < r1 -> 0 < r2 -> r1 <> r2 ->
  lens r1 r2 (Rabs (r1 - r2)) = PI * Rmin r1 r2 * Rmin r1 r2.
Proof.
  intros H1 H2 Hne. destruct (Rlt_dec r2 r1) as [Hlt|Hge].
  - rewrite Rabs_pos_eq by lra. rewrite Rmin_right by lra.
    by apply lens_at_diff.
  - rewrite Rabs_left by lra. rewrite Rmin_left by lra.
    replace (- (r1 - r2)) with (r2 - r1) by ring.
    rewrite lens_sym. apply lens_at_diff; lra.
Qed.

(** A function that, near [x0], takes the value [c] or agrees with a
    function continuous at [x0] with value [c] there, is continuous at
    [x0]. *)
Lemma continuity_glue (f g : R -> R) (x0 c delta : R) :
  0 < delta -> continuity_pt g x0 -> g x0 = c -> f x0 = c ->
  (forall y, Rdist y x0 < delta -> f y = g y \/ f y = c) ->
  continuity_pt f x0.
Proof.
  intros Hdelta Hg Hgc Hfc Hnear eps Heps.
  destruct (Hg eps Heps) as (alp & Halp & Hlim).
  exists (Rmin alp delta). split; [by apply Rmin_glb_lt|].
  intros y [Hy Hdist]. cbn in Hdist |- *.
  assert (Rdist y x0 < delta) as Hd by (eapply Rlt_le_trans; [exact Hdist | apply Rmin_r]).
  assert (Rdist y x0 < alp) as Ha by (eapply Rlt_le_trans; [exact Hdist | apply Rmin_l]).
  rewrite Hfc. destruct (Hnear y Hd) as [-> | ->].
  - rewrite <- Hgc. apply Hlim. split; [exact Hy | exact Ha].
  - unfold Rdist. rewrite Rminus_diag, Rabs_R0. exact Heps.
Qed.

Lemma circleOverlap_zero_radius (r1 r2 d : R) :
  0 <= r1 -> 0 <= r2 -> r1 = 0 \/ r2 = 0 -> circleOverlap r1 r2 d = 0.
Proof.
  intros H1 H2 Hzero. destruct (Rle_dec (r1 + r2) d) as [Hfar|Hnear].
  - by apply circleOverlap_far.
  - rewrite circleOverlap_nested.
    + destruct Hzero as [-> | ->].
      * rewrite Rmin_left by lra. ring.
      * rewrite Rmin_right by lra. ring.
    + lra.
    + destruct Hzero as [-> | ->].
      * rewrite Rabs_left1 by lra. lra.
      * rewrite Rabs_pos_eq by lra. lra.
Qed.

Lemma abs_diff_lt_sum (r1 r2 : R) : 0 < r1 -> 0 < r2 -> Rabs (r1 - r2) < r1 + r2.
Proof. intros H1 H2. apply Rabs_def1; lra. Qed.

(** [circleOverlap] is continuous in the distance. *)
Lemma circleOverlap_continuity (r1 r2 d : R) :
  0 <= r1 -> 0 <= r2 -> continuity_pt (circleOverlap r1 r2) d.
Proof.
  intros H1 H2.
  destruct (Req_dec r1 0) as [Hz1|Hnz1].
  { apply (continuity_pt_locally_ext (fct_cte 0) _ 1 d); [lra| |apply continuity_const].
    intros y _. unfold fct_cte. symmetry. apply circleOverlap_zero_radius; auto. }
  destruct (Req_dec r2 0) as [Hz2|Hnz2].
  { apply (continuity_pt_locally_ext (fct_cte 0) _ 1 d); [lra| |apply continuity_const].
    intros y _. unfold fct_cte. symmetry. apply circleOverlap_zero_radius; auto. }
  assert (0 < r1) as Hp1 by lra. assert (0 < r2) as Hp2 by lra.
  pose proof (abs_diff_lt_sum r1 r2 Hp1 Hp2) as Hlohi.
  pose proof (Rabs_pos (r1 - r2)) as Hlo0.
  set (lo := Rabs (r1 - r2)) in *. set (hi := r1 + r2) in *.
  set (c := PI * Rmin r1 r2 * Rmin r1 r2).
  destruct (Rlt_dec d lo) as [Hdlo|Hdlo].
  { (* inside the smaller disc *)
    apply (continuity_pt_locally_ext (fct_cte c) _ (lo - d) d);
      [lra| |apply continuity_const].
    intros y Hy. unfold fct_cte. symmetry.
    unfold Rdist in Hy. apply Rabs_def2 in Hy.
    apply circleOverlap_nested; fold lo hi; lra. }
  destruct (Rlt_dec hi d) as [Hdhi|Hdhi].
  { (* apart *)
    apply (continuity_pt_locally_ext (fct_cte 0) _ (d - hi) d);
      [lra| |apply continuity_const].
    intros y Hy. unfold fct_cte. symmetry.
    unfold Rdist in Hy. apply Rabs_def2 in Hy.
    apply circleOverlap_far; fold hi; lra. }
  destruct (Req_dec d hi) as [->|Hne_hi].
  { (* touching from outside *)
    apply (continuity_glue _ (lens r1 r2) hi 0 (hi - lo)); [lra| | | |].
    - apply lens_continuity; unfold hi; lra.
    - by apply lens_at_sum.
    - apply circleOverlap_far. fold hi. lra.
    - intros y Hy. unfold Rdist in Hy. apply Rabs_def2 in Hy.
      destruct (Rle_dec hi y) as [Hfar|Hnear].
      + right. by apply circleOverlap_far.
      + left. apply circleOverlap_lens; [lra..|]. fold lo hi. lra. }
  destruct (Req_dec d lo) as [->|Hne_lo].
  { (* touching from inside *)
    assert (circleOverlap r1 r2 lo = c) as Hatlo.
    { apply circleOverlap_nested; fold lo hi; lra. }
    destruct (Req_dec r1 r2) as [Heq|Hne].
    - subst r2.
      assert (lo = 0) as Hlo.
      { unfold lo. by rewrite Rminus_diag, Rabs_R0. }
      rewrite Hlo in *.
      apply (continuity_glue _ (fun d => 2 * sector r1 (d / 2)) 0 c hi); [lra| | | |].
      + change (fun d => 2 * sector r1 (d / 2))
          with (fct_cte 2 * comp (sector r1) (id * fct_cte (/ 2)))%F.
        apply continuity_pt_mult; [apply continuity_const|].
        apply continuity_pt_comp.
        * apply continuity_pt_mult; [apply continuity_id | apply continuity_const].
        * by apply sector_continuity.
      + unfold c, sector. rewrite Rmin_left by lra.
        replace (0 / 2 / r1) with 0 by (field; lra).
        rewrite acos_0. field.
      + exact Hatlo.
      + intros y Hy. unfold Rdist in Hy. apply Rabs_def2 in Hy.
        destruct (Rle_dec y 0) as [Hin|Hout].
        * right. apply circleOverlap_nested; [fold hi; lra|].
          rewrite Rminus_diag, Rabs_R0. exact Hin.
        * left. rewrite circleOverlap_lens; [|lra..|].
          -- apply lens_equal. lra.
          -- rewrite Rminus_diag, Rabs_R0. fold hi. lra.
    - assert (0 < lo) as Hlopos.
      { unfold lo. apply Rabs_pos_lt. lra. }
      apply (continuity_glue _ (lens r1 r2) lo c (hi - lo)); [lra| | | |].
      + apply lens_continuity; lra.
      + by apply lens_at_abs_diff.
      + exact Hatlo.
      + intros y Hy. unfold Rdist in Hy. apply Rabs_def2 in Hy.
        destruct (Rle_dec y lo) as [Hin|Hout].
        * right. apply circleOverlap_nested; fold lo hi; lra.
        * left. apply circleOverlap_lens; [lra..|]. fold lo hi. lra. }
  (* a proper lens *)
  assert (lo < d < hi) as Hd by lra.
  apply (continuity_pt_locally_ext (lens r1 r2) _ (Rmin (d - lo) (hi - d)) d).
  - apply Rmin_glb_lt; lra.
  - intros y Hy. symmetry.
    assert (Rdist y d < d - lo) as Ha by (eapply Rlt_le_trans; [exact Hy | apply Rmin_l]).
    assert (Rdist y d < hi - d) as Hb by (eapply Rlt_le_trans; [exact Hy | apply Rmin_r]).
    unfold Rdist in Ha, Hb. apply Rabs_def2 in Ha, Hb.
    apply circleOverlap_lens; [lra..|]. fold lo hi. lra.
  - apply lens_continuity; lra.
Qed.

End RealJunctions.

Section RealMonotone.
Local Open Scope R_scope.

(** The derivative of [sector r] inside the circle. *)
Lemma sector_derivative (r a : R) :
  0 < r -> - r < a < r ->
  derivable_pt_lim (sector r) a (-2 * R_sqrt.sqrt (r * r - a * a)).
Proof.
  intros Hr [Hlo Hhi].
  assert (0 < r * r - a * a) as Hq by nra.
  set (s := R_sqrt.sqrt (r * r - a * a)).
  assert (0 < s) as Hs by (by apply sqrt_lt_R0).
  assert (s * s = r * r - a * a) as Hss by (apply sqrt_sqrt; lra).
  assert (-1 < a / r < 1) as Hu.
  { split.
    - apply Rmult_lt_reg_r with r; [lra|]. unfold Rdiv.
      rewrite Rmult_assoc, Rinv_l by lra. lra.
    - apply Rmult_lt_reg_r with r; [lra|]. unfold Rdiv.
      rewrite Rmult_assoc, Rinv_l by lra. lra. }
  assert (R_sqrt.sqrt (1 - (a / r)²) = s / r) as Hroot.
  { replace (1 - (a / r)²) with ((r * r - a * a) / (r * r))
      by (unfold Rsqr; field; lra).
    rewrite sqrt_div_alt by nra. by rewrite sqrt_square by lra. }
  assert (derivable_pt_lim acos (a / r) (-1 / (s / r))) as Hacos.
  { rewrite <- Hroot. rewrite <- (derive_pt_acos (a / r) Hu).
    apply (derive_pt_eq_1 acos (a / r) _ (derivable_pt_acos (a / r) Hu)).
    reflexivity. }
  assert (derivable_pt_lim R_sqrt.sqrt (r * r - a * a) (/ (2 * s))) as Hsqrt.
  { by apply derivable_pt_lim_sqrt. }
  change (sector r)
    with (fct_cte (r * r) * comp acos (id / fct_cte r)
          - id * comp R_sqrt.sqrt (fct_cte (r * r) - id * id))%F.
  replace (-2 * s)
    with ((0 * comp acos (id / fct_cte r)%F a
           + fct_cte (r * r) a
             * (-1 / (s / r) * ((1 * fct_cte r a - 0 * id a) / (fct_cte r a)²)))
          - (1 * comp R_sqrt.sqrt (fct_cte (r * r) - id * id)%F a
             + id a * (/ (2 * s) * (0 - (1 * id a + id a * 1))))).
  - apply derivable_pt_lim_minus; apply derivable_pt_lim_mult.
    + apply derivable_pt_lim_const.
    + apply derivable_pt_lim_comp.
      * apply derivable_pt_lim_div;
          [apply derivable_pt_lim_id | apply derivable_pt_lim_const |].
        unfold fct_cte. lra.
      * exact Hacos.
    + apply derivable_pt_lim_id.
    + apply derivable_pt_lim_comp.
      * apply derivable_pt_lim_minus; [apply derivable_pt_lim_const|].
        apply derivable_pt_lim_mult; apply derivable_pt_lim_id.
      * exact Hsqrt.
  - unfold comp, minus_fct, mult_fct, div_fct, fct_cte, id, Rsqr. fold s.
    transitivity ((a * a - r * r) / s - s); [field; lra|].
    replace (a * a - r * r) with (- (s * s)) by lra. field. lra.
Qed.

(** The slope of [chordOffset] in the distance. *)
Lemma chordOffset_derivative (r1 r2 d : R) :
  d <> 0 ->
  derivable_pt_lim (chordOffset r1 r2) d
    ((d * d + r2 * r2 - r1 * r1) / (2 * d * d)).
Proof.
  intros Hd.
  change (chordOffset r1 r2)
    with ((id * id - fct_cte (r2 * r2) + fct_cte (r1 * r1)) / (fct_cte 2 * id))%F.
  replace ((d * d + r2 * r2 - r1 * r1) / (2 * d * d))
    with (((1 * id d + id d * 1 - 0 + 0) * (fct_cte 2 * id)%F d
           - (0 * id d + fct_cte 2 d * 1)
             * (id * id - fct_cte (r2 * r2) + fct_cte (r1 * r1))%F d)
          / ((fct_cte 2 * id)%F d)²).
  - apply derivable_pt_lim_div.
    + apply derivable_pt_lim_plus; [|apply derivable_pt_lim_const].
      apply derivable_pt_lim_minus; [|apply derivable_pt_lim_const].
      apply derivable_pt_lim_mult; apply derivable_pt_lim_id.
    + apply derivable_pt_lim_mult;
        [apply derivable_pt_lim_const | apply derivable_pt_lim_id].
    + unfold mult_fct, fct_cte, id. lra.
  - unfold plus_fct, minus_fct, mult_fct, fct_cte, id, Rsqr. field. exact Hd.
Qed.

(** Between the two tangencies the chord lies inside both circles. *)
Lemma chordOffset_inside (r1 r2 d : R) :
  0 < r1 -> 0 < r2 -> Rabs (r1 - r2) < d < r1 + r2 ->
  - r1 < chordOffset r1 r2 d < r1.
Proof.
  intros H1 H2 [Hlo Hhi].
  assert (r1 - r2 < d /\ r2 - r1 < d) as [Ha Hb].
  { split.
    - eapply Rle_lt_trans; [apply Rle_abs | exact Hlo].
    - eapply Rle_lt_trans; [apply Rle_abs|]. by rewrite Rabs_minus_sym. }
  assert (0 < d) as Hd by (pose proof (Rabs_pos (r1 - r2)); lra).
  assert (0 < / (2 * d)) as Hinv by (apply Rinv_0_lt_compat; lra).
  split.
  - replace (chordOffset r1 r2 d)
      with (- r1 + (d + r1 - r2) * (d + r1 + r2) * / (2 * d))
      by (unfold chordOffset; field; lra).
    assert (0 < (d + r1 - r2) * (d + r1 + r2) * / (2 * d)); [|lra].
    apply Rmult_lt_0_compat; [|exact Hinv]. apply Rmult_lt_0_compat; lra.
  - replace (chordOffset r1 r2 d)
      with (r1 - (r1 + r2 - d) * (d - r1 + r2) * / (2 * d))
      by (unfold chordOffset; field; lra).
    assert (0 < (r1 + r2 - d) * (d - r1 + r2) * / (2 * d)); [|lra].
    apply Rmult_lt_0_compat; [|exact Hinv]. apply Rmult_lt_0_compat; lra.
Qed.

(** Both circles see the same half-chord. *)
Lemma half_chord_eq (r1 r2 d : R) :
  d <> 0 ->
  r1 * r1 - chordOffset r1 r2 d * chordOffset r1 r2 d
  = r2 * r2 - chordOffset r2 r1 d * chordOffset r2 r1 d.
Proof. intros Hd. unfold chordOffset. field. exact Hd. Qed.

(** The lens shrinks at the rate of the common chord. *)
Lemma lens_derivative (r1 r2 d : R) :
  0 < r1 -> 0 < r2 -> Rabs (r1 - r2) < d < r1 + r2 ->
  derivable_pt_lim (lens r1 r2) d
    (-2 * R_sqrt.sqrt (r1 * r1 - chordOffset r1 r2 d * chordOffset r1 r2 d)).
Proof.
  intros H1 H2 Hd.
  assert (0 < d) as Hpos by (pose proof (Rabs_pos (r1 - r2)); lra).
  pose proof (chordOffset_inside r1 r2 d H1 H2 Hd) as Hin1.
  assert (Rabs (r2 - r1) < d < r2 + r1) as Hd'
    by (rewrite Rabs_minus_sym; lra).
  pose proof (chordOffset_inside r2 r1 d H2 H1 Hd') as Hin2.
  change (lens r1 r2)
    with (comp (sector r1) (chordOffset r1 r2)
          + comp (sector r2) (chordOffset r2 r1))%F.
  set (s := R_sqrt.sqrt (r1 * r1 - chordOffset r1 r2 d * chordOffset r1 r2 d)).
  replace (-2 * s)
    with (-2 * s * ((d * d + r2 * r2 - r1 * r1) / (2 * d * d))
          + -2 * R_sqrt.sqrt (r2 * r2 - chordOffset r2 r1 d * chordOffset r2 r1 d)
            * ((d * d + r1 * r1 - r2 * r2) / (2 * d * d))).
  - apply derivable_pt_lim_plus; apply derivable_pt_lim_comp.
    + apply chordOffset_derivative. lra.
    + by apply sector_derivative.
    + apply chordOffset_derivative. lra.
    + by apply sector_derivative.
  - rewrite <- (half_chord_eq r1 r2 d) by lra. fold s. field. lra.
Qed.

(** Between the tangencies, [circleOverlap] does not increase. *)
Lemma circleOverlap_decreasing_between (r1 r2 a b : R) :
  0 < r1 -> 0 < r2 -> Rabs (r1 - r2) <= a -> a < b -> b <= r1 + r2 ->
  circleOverlap r1 r2 b <= circleOverlap r1 r2 a.
Proof.
  intros H1 H2 Ha Hab Hb.
  assert (forall c, a < c < b ->
            derivable_pt_lim (circleOverlap r1 r2) c
              (-2 * R_sqrt.sqrt
                      (r1 * r1 - chordOffset r1 r2 c * chordOffset r1 r2 c)))
    as Hderiv.
  { intros c Hc.
    apply (derivable_pt_lim_locally_ext (lens r1 r2) _ c a b); [exact Hc| |].
    - intros z Hz. symmetry. apply circleOverlap_lens; lra.
    - apply lens_derivative; lra. }
  assert (forall c, a < c < b -> derivable_pt (circleOverlap r1 r2) c) as pr1.
  { intros c Hc. eexists. by apply Hderiv. }
  assert (forall c, a < c < b -> derivable_pt id c) as pr2.
  { intros c _. apply derivable_pt_id. }
  destruct (MVT (circleOverlap r1 r2) id a b pr1 pr2 Hab) as (c & Hc & Hmvt).
  - intros z _. apply circleOverlap_continuity; lra.
  - intros z _. apply continuity_id.
  - rewrite (derive_pt_eq_0 _ _ _ (pr1 c Hc) (Hderiv c Hc)) in Hmvt.
    rewrite (derive_pt_eq_0 _ _ _ (pr2 c Hc) (derivable_pt_lim_id c)) in Hmvt.
    unfold id in Hmvt.
    pose proof (sqrt_pos (r1 * r1 - chordOffset r1 r2 c * chordOffset r1 r2 c))
      as Hroot.
    nra.
Qed.

(** Outside the tangencies it is constant. *)
Lemma circleOverlap_clamp (r1 r2 d : R) :
  0 < r1 -> 0 < r2 ->
  circleOverlap r1 r2 d
  = circleOverlap r1 r2 (clamp (Rabs (r1 - r2)) (r1 + r2) d).
Proof.
  intros H1 H2. pose proof (abs_diff_lt_sum r1 r2 H1 H2) as Hlohi.
  unfold clamp. destruct (Rle_dec (r1 + r2) d) as [Hfar|Hnear].
  - rewrite Rmin_left by lra. rewrite Rmax_right by lra.
    rewrite !circleOverlap_far; lra.
  - rewrite Rmin_right by lra.
    destruct (Rle_dec d (Rabs (r1 - r2))) as [Hin|Hout].
    + rewrite Rmax_left by lra. rewrite !circleOverlap_nested; lra.
    + by rewrite Rmax_right by lra.
Qed.

Lemma circleOverlap_decreasing (r1 r2 d d' : R) :
  0 <= r1 -> 0 <= r2 -> d <= d' ->
  circleOverlap r1 r2 d' <= circleOverlap r1 r2 d.
Proof.
  intros H1 H2 Hdd.
  destruct (Req_dec r1 0) as [Hz1|Hnz1].
  { rewrite !circleOverlap_zero_radius by auto. lra. }
  destruct (Req_dec r2 0) as [Hz2|Hnz2].
  { rewrite !circleOverlap_zero_radius by auto. lra. }
  assert (0 < r1) as Hp1 by lra. assert (0 < r2) as Hp2 by lra.
  pose proof (abs_diff_lt_sum r1 r2 Hp1 Hp2) as Hlohi.
  rewrite (circleOverlap_clamp r1 r2 d), (circleOverlap_clamp r1 r2 d') by assumption.
  set (lo := Rabs (r1 - r2)) in *. set (hi := r1 + r2) in *.
  assert (lo <= clamp lo hi d <= hi) as Hc.
  { unfold clamp. split; [apply Rmax_l|]. apply Rmax_lub; [lra | apply Rmin_l]. }
  assert (clamp lo hi d' <= hi) as Hc'.
  { unfold clamp. apply Rmax_lub; [lra | apply Rmin_l]. }
  assert (clamp lo hi d <= clamp lo hi d') as Hmono.
  { unfold clamp. apply Rle_max_compat_l. apply Rle_min_compat_l. exact Hdd. }
  destruct (Req_dec (clamp lo hi d) (clamp lo hi d')) as [->|Hne]; [lra|].
  apply circleOverlap_decreasing_between; fold lo hi; lra.
Qed.

End RealMonotone.

Section RealOverlapSummary.
Local Open Scope R_scope.

(** The formula in exact arithmetic: for radii [r1, r2 >= 0],
    [circleOverlap r1 r2 d] over the reals is 0 when [d >= r1 + r2], is
    [pi * min(r1, r2)^2] when [d <= |r1 - r2|], is between the two the sum
    of the two circular-segment areas, and is as a function of [d]
    continuous and non-increasing.  On binary64 the program does not keep
    to this near a tangency, see [circleOverlap_nearly_tangent]. *)
Lemma circleOverlap_exact (r1 r2 : R) :
  0 <= r1 -> 0 <= r2 ->
  (forall d, r1 + r2 <= d -> circleOverlap r1 r2 d = 0)
  /\ (forall d, d <= Rabs (r1 - r2) ->
        circleOverlap r1 r2 d = PI * (Rmin r1 r2 * Rmin r1 r2))
  /\ (forall d, Rabs (r1 - r2) < d < r1 + r2 ->
        circleOverlap r1 r2 d
        = circleArea r1 (r1 - (d * d - r2 * r2 + r1 * r1) / (2 * d))
          + circleArea r2 (r2 - (d * d - r1 * r1 + r2 * r2) / (2 * d)))
  /\ (forall d, continuity_pt (circleOverlap r1 r2) d)
  /\ (forall d d', d <= d' -> circleOverlap r1 r2 d' <= circleOverlap r1 r2 d).
Proof.
  intros H1 H2. split; [|split; [|split; [|split]]].
  - intros d Hd. by apply circleOverlap_far.
  - intros d Hd. destruct (Rle_dec (r1 + r2) d) as [Hfar|Hnear].
    + rewrite circleOverlap_far by exact Hfar.
      assert (Rmin r1 r2 = 0) as ->; [|ring].
      destruct (Rle_dec r1 r2) as [Hle|Hgt].
      * rewrite Rabs_left1 in Hd by lra. rewrite Rmin_left by lra. lra.
      * rewrite Rabs_pos_eq in Hd by lra. rewrite Rmin_right by lra. lra.
    + rewrite circleOverlap_nested by lra. ring.
  - intros d Hd. by apply circleOverlap_between.
  - intros d. by apply circleOverlap_continuity.
  - intros d d' Hdd. by apply circleOverlap_decreasing.
Qed.

End RealOverlapSummary.

(** ** Vector utilities *)

Section Blas1Facts.
Import Blas1.
Local Open Scope float_scope.

Lemma weightedSum_length (ret v1 v2 : list float) (w1 w2 : float) :
  length (weightedSum ret w1 v1 w2 v2) = length ret.
Proof. unfold weightedSum. by rewrite length_imap. Qed.

(** On vectors as long as [ret], the array returned holds the weighted sum. *)
Lemma weightedSum_lookup (ret v1 v2 : list float) (w1 w2 a b : float) (i : nat) :
  i < length ret -> v1 !! i = Some a -> v2 !! i = Some b ->
  weightedSum ret w1 v1 w2 v2 !! i = Some (w1 * a + w2 * b).
Proof.
  intros Hi Ha Hb. unfold weightedSum.
  destruct (lookup_lt_is_Some_2 ret i Hi) as [r Hr].
  rewrite list_lookup_imap, Hr. cbn. unfold at_index. by rewrite Ha, Hb.
Qed.

(** C4: [weightedSum] writes nothing into the array passed as [ret]: when its
    three arrays exist, the call returns the location of a new array, which
    holds the weighted sum, and every array of the heap, [ret] among them, is
    as it was. *)
Theorem weightedSum_leaves_ret_unchanged (h : heap) (ret v1 v2 : loc)
  (w1 w2 : float) (aret av1 av2 : list float) :
  h !! ret = Some aret -> h !! v1 = Some av1 -> h !! v2 = Some av2 ->
  exists (r : loc) (h' : heap),
    weightedSum_ref h ret w1 v1 w2 v2 = Ok (r, h')
    /\ h !! r = None
    /\ h' !! r = Some (weightedSum aret w1 av1 w2 av2)
    /\ h' !! ret = Some aret
    /\ (forall l : loc, l <> r -> h' !! l = h !! l)
    /\ (length av1 = length aret -> length av2 = length aret ->
        forall i a b, av1 !! i = Some a -> av2 !! i = Some b ->
          weightedSum aret w1 av1 w2 av2 !! i = Some (w1 * a + w2 * b)).
Proof.
  intros Hret Hv1 Hv2.
  exists (length h), (h ++ [weightedSum aret w1 av1 w2 av2]).
  unfold weightedSum_ref. rewrite Hret, Hv1, Hv2. cbn.
  split; [reflexivity|].
  split; [by apply lookup_ge_None_2|].
  split; [by rewrite lookup_app_r, Nat.sub_diag|].
  split; [by rewrite lookup_app_l by (by eapply lookup_lt_Some)|].
  split.
  - intros l Hl. destruct (decide (l < length h)) as [Hlt|Hge].
    + by rewrite lookup_app_l.
    + rewrite lookup_app_r by lia.
      rewrite (lookup_ge_None_2 h l) by lia.
      destruct (l - length h)%nat as [|k] eqn:Hk; [lia|]. by destruct k.
  - intros Hl1 Hl2 i a b Ha Hb. apply weightedSum_lookup; [|done..].
    rewrite <- Hl1. by eapply lookup_lt_Some.
Qed.

Lemma weightedSum_leaves_ret_unchanged_witness :
  exists (r : loc) (h' : heap),
    weightedSum_ref [[9; 9]; [1; 2]; [3; 4]] 0 1 1 2 2 = Ok (r, h')
    /\ [[9; 9]; [1; 2]; [3; 4]] !! r = None
    /\ h' !! r = Some (weightedSum [9; 9] 1 [1; 2] 2 [3; 4])
    /\ h' !! 0%nat = Some [9; 9]
    /\ (forall l : loc, l <> r -> h' !! l = [[9; 9]; [1; 2]; [3; 4]] !! l)
    /\ (length [1; 2] = length [9; 9] -> length [3; 4] = length [9; 9] ->
        forall i a b, [1; 2] !! i = Some a -> [3; 4] !! i = Some b ->
          weightedSum [9; 9] 1 [1; 2] 2 [3; 4] !! i = Some (1 * a + 2 * b)).
Proof.
  apply (weightedSum_leaves_ret_unchanged [[9; 9]; [1; 2]; [3; 4]] 0 1 2 1 2
           [9; 9] [1; 2] [3; 4]); reflexivity.
Defined.

(** By contrast [scale] does write its result into [ret]. *)
Lemma scale_writes_ret (h : heap) (ret value : loc) (c : float)
  (aret avalue : list float) :
  h !! ret = Some aret -> h !! value = Some avalue ->
  exists h', scale_ref h ret value c = Ok h'
    /\ h' !! ret = Some (scale aret avalue c)
    /\ (forall l : loc, l <> ret -> h' !! l = h !! l).
Proof.
  intros Hret Hvalue. exists (<[ret := scale aret avalue c]> h).
  unfold scale_ref. rewrite Hret, Hvalue. cbn.
  split; [reflexivity|]. split.
  - apply list_lookup_insert_eq. by eapply lookup_lt_Some.
  - intros l Hl. by apply list_lookup_insert_ne.
Qed.

End Blas1Facts.

(** ** Bisection *)

Section BisectFacts.
Import Fmin.
Local Open Scope float_scope.

Variable f : float -> float.
Variables fa tolerance : float.

Lemma bracket_S (k : nat) (a delta : float) :
  bracket f fa (S k) a delta
  = bracket f fa k (if f (a + delta / 2) * fa >=? 0 then a + delta / 2 else a)
      (delta / 2).
Proof. reflexivity. Qed.

Lemma midpoint_S (k : nat) (a delta : float) :
  midpoint f fa (S k) a delta
  = midpoint f fa k (if f (a + delta / 2) * fa >=? 0 then a + delta / 2 else a)
      (delta / 2).
Proof. reflexivity. Qed.

Lemma stops_S (k : nat) (a delta : float) :
  stops f fa tolerance (S k) a delta
  = stops f fa tolerance k
      (if f (a + delta / 2) * fa >=? 0 then a + delta / 2 else a) (delta / 2).
Proof. reflexivity. Qed.

(** After [k] halvings the width is the first width halved [k] times. *)
Lemma bracket_width (k : nat) (a delta : float) :
  snd (bracket f fa k a delta) = Nat.iter k (fun d => d / 2) delta.
Proof.
  revert a delta. induction k as [|k IH]; intros a delta; [reflexivity|].
  rewrite bracket_S, IH. by rewrite Nat.iter_succ_r.
Qed.

(** The loop returns the midpoint of the first round that stops, and the
    end of the last bracket when none of its [n] rounds does. *)
Lemma bisect_loop_spec (n : nat) (a delta : float) :
  exists k : nat,
    k <= n
    /\ (forall j, j < k -> stops f fa tolerance j a delta = false)
    /\ ((k < n /\ stops f fa tolerance k a delta = true
         /\ bisect_loop f fa tolerance n a delta = midpoint f fa k a delta)
        \/ (k = n
            /\ bisect_loop f fa tolerance n a delta
               = fst (bracket f fa n a delta) + snd (bracket f fa n a delta))).
Proof.
  revert a delta. induction n as [|n IH]; intros a delta.
  - exists 0%nat. split; [lia|]. split; [intros j Hj; lia|]. right. by split.
  - cbn [bisect_loop].
    destruct ((abs (delta / 2) <? tolerance) || (f (a + delta / 2) =? 0)) eqn:Hstop.
    + exists 0%nat. split; [lia|]. split; [intros j Hj; lia|]. left.
      split; [lia|]. split; [exact Hstop | reflexivity].
    + destruct (IH (if f (a + delta / 2) * fa >=? 0 then a + delta / 2 else a)
                  (delta / 2)) as (k & Hk & Hbefore & Hend).
      exists (S k). split; [lia|]. split.
      * intros [|j] Hj; [exact Hstop|].
        rewrite stops_S. apply Hbefore. lia.
      * destruct Hend as [(Hlt & Hs & Hres) | (-> & Hres)].
        -- left. split; [lia|]. split; [|].
           ++ rewrite stops_S. exact Hs.
           ++ rewrite Hres. by rewrite midpoint_S.
        -- right. split; [reflexivity|]. rewrite Hres. by rewrite bracket_S.
Qed.

End BisectFacts.

Section BisectClaim.
Import Fmin Inputs.
Local Open Scope float_scope.

(** What [bisect] does: it throws exactly when the binary64 product
    [f(a) * f(b)] is greater than 0; it returns [a] if [f(a) = 0] and, when
    [f(a) <> 0], [b] if [f(b) = 0]; otherwise it halves the bracket until the
    halved width is below [tolerance] or the midpoint is a root, and returns
    that midpoint, or after [maxiterations] halvings the end of the last
    bracket. *)
Lemma bisect_spec (f : float -> float) (a b : float)
  (parameters : option BisectParams) :
  let maxiterations :=
    match maxiterations (default (mkBisectParams None None) parameters) with
    | Some (S n) => S n
    | _ => 100%nat
    end in
  let tolerance :=
    field_or (tolerance (default (mkBisectParams None None) parameters)) 1e-10 in
  ((f a * f b >? 0) = true <->
     bisect f a b parameters
     = Throw "initial bisect points must have opposite signs")
  /\ ((f a =? 0) = true -> bisect f a b parameters = Ok a)
  /\ ((f a =? 0) = false -> (f b =? 0) = true -> bisect f a b parameters = Ok b)
  /\ ((f a * f b >? 0) = false -> (f a =? 0) = false -> (f b =? 0) = false ->
      exists k : nat,
        k <= maxiterations
        /\ (forall j, j < k -> stops f (f a) tolerance j a (b - a) = false)
        /\ ((k < maxiterations /\ stops f (f a) tolerance k a (b - a) = true
             /\ bisect f a b parameters = Ok (midpoint f (f a) k a (b - a)))
            \/ (k = maxiterations
                /\ bisect f a b parameters
                   = Ok (fst (bracket f (f a) k a (b - a))
                         + snd (bracket f (f a) k a (b - a)))))).
Proof.
  intros maxiterations tolerance. unfold bisect. cbv zeta.
  fold maxiterations tolerance.
  split; [|split; [|split]].
  - destruct (f a * f b >? 0) eqn:Hprod; [done|].
    split; [discriminate|].
    destruct (f a =? 0); [discriminate|]. destruct (f b =? 0); discriminate.
  - intros Hfa. rewrite (mul_zero_not_pos_l _ _ Hfa). by rewrite Hfa.
  - intros Hfa Hfb. rewrite (mul_zero_not_pos_r _ _ Hfb). by rewrite Hfa, Hfb.
  - intros Hprod Hfa Hfb. rewrite Hprod, Hfa, Hfb.
    destruct (bisect_loop_spec f (f a) tolerance maxiterations a (b - a))
      as (k & Hk & Hbefore & Hend).
    exists k. split; [exact Hk|]. split; [exact Hbefore|].
    destruct Hend as [(Hlt & Hs & ->) | (-> & ->)]; [left | right]; done.
Qed.

(** C8 (evaluation at the failing input): [f(a) = f(b) = 1e-200] have the
    same sign, their product underflows to 0, so that the guard
    [fa * fb > 0] does not hold, and [bisect] returns a number (the last
    midpoint, 1 - 2^-34) instead of throwing. *)
Theorem bisect_same_sign_returns :
  (0 <? tiny 0) = true /\ (0 <? tiny 1) = true
  /\ (tiny 0 * tiny 1 >? 0) = false
  /\ bisect tiny 0 1 None = Ok 0.99999999994179234.
Proof. repeat split; vm_compute; reflexivity. Qed.

End BisectClaim.


(** ** Arrays with holes *)

Section ArrayFacts.

(** [map] over an array of holes never calls its callback. *)
Lemma Array_map_st_holes {S A B : Type} (callback : S -> A -> Result (S * B))
  (s : S) (n : nat) :
  Array_map_st callback s (Array_new n) = Ok (s, Array_new n).
Proof.
  unfold Array_new. induction n as [|n IH]; [reflexivity|].
  cbn [replicate Array_map_st]. by rewrite IH.
Qed.

End ArrayFacts.


(** ** Nelder-Mead *)

Section NelderMeadFacts.
Import NelderMead Inputs.
Local Open Scope float_scope.

(** Whatever the caller passes, the variables bound from
    [{ ...parameters, ...defaultParameters }] hold the defaults. *)
Lemma resolve_defaults (parameters : NelderMead2dParameters) :
  nonZeroDelta (resolve parameters) = Some 1.05
  /\ zeroDelta (resolve parameters) = Some 0.001
  /\ minErrorDelta (resolve parameters) = Some 1e-6
  /\ minTolerance (resolve parameters) = Some 1e-5
  /\ rho (resolve parameters) = Some 1
  /\ chi (resolve parameters) = Some 2
  /\ psi (resolve parameters) = Some (-0.5)
  /\ sigma (resolve parameters) = Some 0.5.
Proof. repeat split. Qed.

Lemma nelderMead2d_parameters_ignored (f : list float -> float)
  (initialGuess : list float) (p q : NelderMead2dParameters) :
  nelderMead2d f initialGuess p = nelderMead2d f initialGuess q.
Proof. reflexivity. Qed.

(** Index 1 of [new Array(N + 1)] is a hole when the first assignment of
    the loop sets its property [coordinates]. *)
Lemma initialSimplex_throws (f : list float -> float) (nonZeroDelta zeroDelta x : float)
  (guess : list float) :
  initialSimplex f nonZeroDelta zeroDelta (x :: guess) = TypeError.
Proof.
  unfold initialSimplex, Array_new. cbn [length].
  rewrite Nat.add_1_r. reflexivity.
Qed.

Lemma NelderMead_nelderMead2d_throws (f : list float -> float) (x : float) (guess : list float)
  (parameters : NelderMead2dParameters) :
  nelderMead2d f (x :: guess) parameters = TypeError.
Proof. unfold nelderMead2d. cbv zeta. by rewrite initialSimplex_throws. Qed.

(** C6: the minimizer does not reach its loop for an initial guess with a
    coordinate: the vertices after the first are to be stored through
    [simplex[i + 1].coordinates], [simplex[i + 1]] is a hole of
    [new Array(N + 1)], and the call throws, whatever the objective and the
    parameters.  Only for the empty guess does it return, and then after no
    round.  The tolerances the test of the loop would use are the defaults,
    whatever the caller configured. *)
Theorem nelderMead2d_throws_before_iterating (f : list float -> float) (x : float)
  (guess : list float) (parameters : NelderMead2dParameters) :
  nelderMead2d f (x :: guess) parameters = TypeError
  /\ nelderMead2d f [] parameters
     = Ok ({| value_at_peak := f [];
              index_at_peak := {| coordinates := []; fx := f []; id := 0 |} |},
           0%nat)
  /\ minErrorDelta (resolve parameters) = Some 1e-6
  /\ minTolerance (resolve parameters) = Some 1e-5.
Proof.
  split; [apply NelderMead_nelderMead2d_throws|]. repeat split.
Qed.

End NelderMeadFacts.

(** ** Label anchors *)

Section TextCentreFacts.
Import Diagram Inputs.
Local Open Scope float_scope.

(** The distance to a number is NaN. *)
Lemma distance_to_number (ret : TextCentre) (i : float) : distance ret i = nan.
Proof.
  unfold distance.
  cbn [getX getY TextCentre_HasXY number_HasXY nadd nsub nmul Math_sqrt float_Number].
  by rewrite !sub_nan_r.
Qed.

(** The check rejects every point as soon as there is an interior circle. *)
Lemma valid_rejects (ret : TextCentre) (i : float) (c : Circle float)
  (interior exterior : list (Circle float)) :
  valid ret i (c :: interior) exterior = false.
Proof.
  unfold valid. cbn [forallb]. rewrite distance_to_number.
  cbn [nltb float_Number]. by rewrite ltb_nan_r.
Qed.

(** The test on the exterior circles holds of a point inside them. *)
Lemma valid_inside_exterior :
  valid (mkTextCentre 0 0 false) 5 [] [unitCircle] = true.
Proof. reflexivity. Qed.

End TextCentreFacts.

(** ** Circle paths *)

Section PathFacts.
Import Diagram Inputs.
Local Open Scope float_scope.

Variable toString : float -> string.
Variable parseFloat : string -> float.

Lemma split_token (token rest : string) :
  no_space token = true ->
  split (token ++ String " " rest) = token :: split rest.
Proof.
  induction token as [|c token IH]; intros Hns; [reflexivity|].
  cbn in Hns. apply andb_true_iff in Hns as [Hc Hns].
  cbn [append split]. rewrite IH by done.
  by destruct (Ascii.eqb c " ").
Qed.

Lemma join_cons (token next : string) (tokens : list string) :
  join (token :: next :: tokens) = (token ++ String " " (join (next :: tokens)))%string.
Proof. reflexivity. Qed.

Lemma no_space_command (c : string) :
  no_space c = true -> no_space (newline ++ c) = true.
Proof. intros H. cbn. exact H. Qed.

(** The first five tokens of a circle's path. *)
Lemma split_circlePath (c : Circle float) :
  no_space (toString (x c)) = true ->
  no_space (toString (y c)) = true ->
  no_space (toString (- radius c)) = true ->
  exists rest,
    split (circlePath toString c)
    = (newline ++ "M")%string :: toString (x c) :: toString (y c)
      :: (newline ++ "m")%string :: toString (- radius c) :: rest.
Proof.
  intros Hx Hy Hr. unfold circlePath. cbv zeta. cbn [app].
  rewrite !join_cons.
  rewrite split_token by reflexivity.
  rewrite split_token by exact Hx.
  rewrite split_token by exact Hy.
  rewrite split_token by reflexivity.
  rewrite split_token by exact Hr.
  by eexists.
Qed.

(** C9: when the texts of [x], [y] and [-radius] have no blank and read back
    as those numbers, [circleFromPath] recovers from the path of a circle
    its [x], [y] and [radius]. *)
Theorem circleFromPath_circlePath (c : Circle float) :
  faithful toString parseFloat (x c) ->
  faithful toString parseFloat (y c) ->
  faithful toString parseFloat (- radius c) ->
  let c' := circleFromPath parseFloat (circlePath toString c) in
  (x c' =? x c) = true /\ (y c' =? y c) = true /\ (radius c' =? radius c) = true.
Proof.
  intros [Hx Px] [Hy Py] [Hr Pr]. cbv zeta. unfold circleFromPath. cbv zeta.
  destruct (split_circlePath c Hx Hy Hr) as [rest ->].
  cbn [x y radius parseToken lookup list_lookup].
  split; [exact Px|]. split; [exact Py|]. by apply eqb_opp_swap.
Qed.

End PathFacts.

Lemma circleFromPath_circlePath_witness :
  let c' :=
    Diagram.circleFromPath Inputs.parseDecimal
      (Diagram.circlePath Inputs.decimal Inputs.circle345) in
  (x c' =? x Inputs.circle345)%float = true
  /\ (y c' =? y Inputs.circle345)%float = true
  /\ (radius c' =? radius Inputs.circle345)%float = true.
Proof.
  apply (circleFromPath_circlePath Inputs.decimal Inputs.parseDecimal
           Inputs.circle345);
    split; vm_compute; reflexivity.
Defined.

(** * Further properties of the code *)

(** ** More facts about binary64 *)

Section FloatAlgebra.
Local Open Scope float_scope.

Lemma SFsub_diag (v : spec_float) :
  SF64sub v v = S754_zero false \/ SF64sub v v = S754_nan.
Proof.
  destruct v as [[]|[]| |s m e]; cbn; auto.
  left. unfold SF64sub, SFsub. rewrite Z.sub_diag. reflexivity.
Qed.

Lemma float_sub_diag (v : float) : v - v = 0 \/ v - v = nan.
Proof.
  destruct (SFsub_diag (Prim2SF v)) as [H | H]; [left | right];
    apply Prim2SF_inj; rewrite sub_spec, H; reflexivity.
Qed.

Lemma SFmul_comm (a b : spec_float) : SF64mul a b = SF64mul b a.
Proof.
  destruct a as [s|s| |s m e], b as [s'|s'| |s' m' e']; try reflexivity;
    unfold SF64mul, SFmul; rewrite (xorb_comm s s'); try reflexivity.
  rewrite (Pos.mul_comm m m'), (Z.add_comm e e'). reflexivity.
Qed.

Lemma float_mul_comm (a b : float) : a * b = b * a.
Proof. apply Prim2SF_inj. rewrite !mul_spec. apply SFmul_comm. Qed.

Lemma SFadd_comm (a b : spec_float) : SF64add a b = SF64add b a.
Proof.
  destruct a as [[]|[]| |s m e], b as [[]|[]| |s' m' e']; try reflexivity.
  unfold SF64add, SFadd. rewrite (Z.min_comm e e'), Z.add_comm. reflexivity.
Qed.

Lemma float_add_comm (a b : float) : a + b = b + a.
Proof. apply Prim2SF_inj. rewrite !add_spec. apply SFadd_comm. Qed.

Lemma mul_nan_r (v : float) : v * nan = nan.
Proof.
  apply Prim2SF_inj. rewrite mul_spec. change (Prim2SF nan) with S754_nan.
  destruct (Prim2SF v) as [[]|[]| |s m e]; reflexivity.
Qed.

Lemma mul_nan_l (v : float) : nan * v = nan.
Proof. rewrite float_mul_comm. apply mul_nan_r. Qed.

Lemma add_nan_r (v : float) : v + nan = nan.
Proof.
  apply Prim2SF_inj. rewrite add_spec. change (Prim2SF nan) with S754_nan.
  destruct (Prim2SF v) as [[]|[]| |s m e]; reflexivity.
Qed.

Lemma add_nan_l (v : float) : nan + v = nan.
Proof. rewrite float_add_comm. apply add_nan_r. Qed.

End FloatAlgebra.

Section FloatOrder.
Local Open Scope float_scope.

Ltac compare_cases :=
  repeat match goal with
    | H : context [Pos.compare_cont Eq ?x ?y] |- _ =>
        rewrite (Pos.compare_cont_spec x y Eq) in H; cbn [Pos.switch_Eq] in H
    | |- context [Pos.compare_cont Eq ?x ?y] =>
        rewrite (Pos.compare_cont_spec x y Eq); cbn [Pos.switch_Eq]
    end;
  repeat match goal with
    | H : context [Z.compare ?x ?y] |- _ => destruct (Z.compare_spec x y)
    | H : context [Pos.compare ?x ?y] |- _ => destruct (Pos.compare_spec x y)
    | |- context [Z.compare ?x ?y] => destruct (Z.compare_spec x y)
    | |- context [Pos.compare ?x ?y] => destruct (Pos.compare_spec x y)
    end;
  cbn in *; try discriminate; try reflexivity; try lia.

Lemma SFleb_trans (a b c : spec_float) :
  SFleb a b = true -> SFleb b c = true -> SFleb a c = true.
Proof.
  unfold SFleb, SFcompare.
  destruct a as [[]|[]| |[] ma ea], b as [[]|[]| |[] mb eb],
    c as [[]|[]| |[] mc ec]; try done; intros Hab Hbc; compare_cases.
Qed.

Lemma SFleb_total (a b : spec_float) :
  a <> S754_nan -> b <> S754_nan -> SFleb a b = false -> SFleb b a = true.
Proof.
  unfold SFleb, SFcompare.
  destruct a as [[]|[]| |[] ma ea], b as [[]|[]| |[] mb eb]; try done;
    intros _ _ Hab; compare_cases.
Qed.

Lemma SFleb_not_nan (a b : spec_float) :
  SFleb a b = true -> a <> S754_nan /\ b <> S754_nan.
Proof.
  unfold SFleb, SFcompare.
  destruct a as [[]|[]| |[] ma ea], b as [[]|[]| |[] mb eb]; done.
Qed.

Lemma float_leb_trans (a b c : float) :
  (a <=? b) = true -> (b <=? c) = true -> (a <=? c) = true.
Proof. rewrite !leb_spec. apply SFleb_trans. Qed.

Lemma is_nan_spec (v : float) : is_nan v = true <-> Prim2SF v = S754_nan.
Proof.
  unfold is_nan. rewrite FloatAxioms.eqb_spec. unfold SFeqb, SFcompare.
  destruct (Prim2SF v) as [[]|[]| |[] m e]; cbn;
    rewrite ?Z.compare_refl, ?Pos.compare_cont_refl; cbn; split; done.
Qed.

Lemma float_leb_total (a b : float) :
  is_nan a = false -> is_nan b = false -> (a <=? b) = false -> (b <=? a) = true.
Proof.
  rewrite !leb_spec. intros Ha Hb. apply SFleb_total.
  - intros H. apply is_nan_spec in H. congruence.
  - intros H. apply is_nan_spec in H. congruence.
Qed.

Lemma float_leb_not_nan (a b : float) :
  (a <=? b) = true -> is_nan a = false /\ is_nan b = false.
Proof.
  rewrite leb_spec. intros [Ha Hb]%SFleb_not_nan.
  split; apply not_true_is_false; intros H%is_nan_spec; done.
Qed.

Lemma float_leb_refl (a : float) : is_nan a = false -> (a <=? a) = true.
Proof.
  intros Ha. pose proof (float_leb_total a a Ha Ha) as Ht.
  destruct (a <=? a); [done | by apply Ht].
Qed.

End FloatOrder.

Section FloatDoubling.

(** The product of 2^52 and a mantissa: 52 more binary digits. *)
Lemma mul_pow52 (m : positive) :
  Pos.mul 4503599627370496 m = Pos.iter xO m 52.
Proof. reflexivity. Qed.

Lemma digits2_pos_shift (m : positive) :
  (Zpos (digits2_pos (Pos.mul 4503599627370496 m)) = Zpos (digits2_pos m) + 52)%Z.
Proof.
  rewrite mul_pow52. cbv [Pos.iter]. cbn [digits2_pos].
  rewrite !Pos2Z.inj_succ. lia.
Qed.

(** Twice a finite number: the same mantissa one exponent up (or an
    infinity), or for a subnormal number twice the mantissa. *)
Lemma SFmul_two (s : bool) (m : positive) (e : Z) :
  bounded prec emax m e = true ->
  SF64mul (S754_finite false 4503599627370496 (-51)) (S754_finite s m e)
  = (if Z.eqb (Zpos (digits2_pos m)) 53
     then if Z.leb (e + 1) 971 then S754_finite s m (e + 1) else S754_infinity s
     else S754_finite s (xO m) e).
Proof.
  unfold bounded, canonical_mantissa. intros [Hcan Hmax]%andb_prop.
  apply Z.eqb_eq in Hcan. apply Z.leb_le in Hmax.
  unfold fexp, emin, prec, emax in Hcan, Hmax.
  unfold SF64mul, SFmul. cbn [xorb].
  unfold binary_round_aux, shr_fexp. cbn [shr_record_of_loc Zdigits2].
  rewrite digits2_pos_shift.
  set (d := Zpos (digits2_pos m)) in *.
  assert (0 < d)%Z as Hd by (subst d; lia).
  destruct (Z.eqb_spec d 53) as [Hn | Hs].
  - replace (fexp prec emax (d + 52 + (-51 + e)) - (-51 + e))%Z with 52%Z
      by (unfold fexp, emin, prec, emax; lia).
    rewrite mul_pow52. cbv [Pos.iter].
    cbn [shr SpecFloat.iter_pos shr_1 orb shr_m loc_of_shr_record
         round_nearest_even Zdigits2].
    fold d.
    match goal with
    | |- context [(fexp prec emax ?u - ?v)%Z] =>
        replace (fexp prec emax u - v)%Z with 0%Z
          by (unfold fexp, emin, prec, emax; lia)
    end.
    cbn [shr shr_m]. replace (-51 + e + 52)%Z with (e + 1)%Z by lia.
    reflexivity.
  - replace (fexp prec emax (d + 52 + (-51 + e)) - (-51 + e))%Z with 51%Z
      by (unfold fexp, emin, prec, emax; lia).
    rewrite mul_pow52. cbv [Pos.iter].
    cbn [shr SpecFloat.iter_pos shr_1 orb shr_m loc_of_shr_record
         round_nearest_even Zdigits2 digits2_pos].
    replace (Z.pos (Pos.succ (digits2_pos m))) with (d + 1)%Z by (subst d; lia).
    match goal with
    | |- context [(fexp prec emax ?u - ?v)%Z] =>
        replace (fexp prec emax u - v)%Z with 0%Z
          by (unfold fexp, emin, prec, emax; lia)
    end.
    cbn [shr shr_m]. replace (-51 + e + 51)%Z with e by lia.
    replace (e <=? emax - prec)%Z with true; [reflexivity|].
    symmetry. apply Z.leb_le. unfold prec, emax. lia.
Qed.

Local Open Scope float_scope.

(** Doubling a number that is neither 0 nor NaN gives neither. *)
Lemma truthy_double (a : float) : truthy a = true -> truthy (a * 2) = true.
Proof.
  unfold truthy. intros [Hzero Hnan]%andb_prop.
  apply negb_true_iff in Hzero, Hnan.
  assert (Prim2SF (a * 2)
          = SF64mul (S754_finite false 4503599627370496 (-51)) (Prim2SF a)) as Hmul.
  { rewrite mul_spec. apply SFmul_comm. }
  pose proof (Prim2SF_valid a) as Hvalid.
  rewrite FloatAxioms.eqb_spec in Hzero.
  assert (Prim2SF (a * 2) <> S754_nan
          /\ SFeqb (Prim2SF (a * 2)) (Prim2SF 0) = false) as [H1 H2].
  { rewrite Hmul. change (Prim2SF 0) with (S754_zero false) in *.
    destruct (Prim2SF a) as [s|s| |s m e] eqn:Ha.
    - destruct s; discriminate.
    - split; [discriminate | by destruct s].
    - apply is_nan_spec in Ha. congruence.
    - rewrite (SFmul_two s m e Hvalid).
      destruct (_ =? 53)%Z; [destruct (_ <=? 971)%Z|]; split; try discriminate;
        by destruct s. }
  rewrite FloatAxioms.eqb_spec, H2. cbn [negb andb].
  apply negb_true_iff. destruct (is_nan (a * 2)) eqn:E; [|reflexivity].
  apply is_nan_spec in E. contradiction.
Qed.

Lemma truthy_or_default (a : float) : truthy (or_default a 1) = true.
Proof. unfold or_default. by destruct (truthy a) eqn:E. Qed.

Lemma truthy_doubled (n : nat) (a : float) :
  truthy a = true -> truthy (Nat.iter n (fun a => a * 2) a) = true.
Proof. intros Ha. induction n as [|n IH]; [done|]. cbn. by apply truthy_double. Qed.

End FloatDoubling.

(** ** The overlap of two circles, on binary64 *)

Section FloatOverlap.
Context {T : Trig float}.
Local Open Scope float_scope.

(** The square root of a negative number is NaN. *)
Lemma sqrt_negative (v : float) : (v <? 0) = true -> sqrt v = nan.
Proof.
  intros Hneg. apply Prim2SF_inj. rewrite sqrt_spec.
  rewrite ltb_spec in Hneg. change (Prim2SF 0) with (S754_zero false) in Hneg.
  destruct (Prim2SF v) as [[]|[]| |[] m e]; try discriminate; reflexivity.
Qed.

Lemma leb_nan_l (v : float) : (nan <=? v) = false.
Proof.
  destruct (nan <=? v) eqn:Hle; [|reflexivity].
  by destruct (float_leb_not_nan _ _ Hle).
Qed.

Lemma leb_nan_r (v : float) : (v <=? nan) = false.
Proof.
  destruct (v <=? nan) eqn:Hle; [|reflexivity].
  by destruct (float_leb_not_nan _ _ Hle).
Qed.

(** A segment whose height has rounded to just below 0, or to just above
    the diameter, has a negative radicand: its area is NaN, whatever
    [Math.acos] returns. *)
Lemma circleArea_negative_radicand (r width : float) :
  (width * (2 * r - width) <? 0) = true -> circleArea r width = nan.
Proof.
  intros Hneg. unfold circleArea.
  cbn [nadd nsub nmul ndiv lit Math_sqrt float_Number].
  change (float_of_Z 2) with 2. rewrite (sqrt_negative _ Hneg).
  by rewrite mul_nan_r, sub_nan_r.
Qed.

(** Between the two tests of [circleOverlap], a negative radicand in the
    second segment makes the overlap NaN. *)
Lemma circleOverlap_negative_radicand (r1 r2 d : float) :
  (d >=? r1 + r2) = false ->
  (d <=? abs (r1 - r2)) = false ->
  let w2 := r2 - (d * d - r1 * r1 + r2 * r2) / (2 * d) in
  (w2 * (2 * r2 - w2) <? 0) = true ->
  circleOverlap r1 r2 d = nan.
Proof.
  intros Hfar Hnested w2 Hneg. unfold circleOverlap.
  cbn [nadd nsub nmul ndiv nleb lit Math_abs float_Number].
  change (float_of_Z 2) with 2. rewrite Hfar, Hnested.
  fold w2. rewrite (circleArea_negative_radicand r2 w2 Hneg). apply add_nan_r.
Qed.

(** C3 (evaluation at the failing input): for the radii 0.2 and 2.7 and
    the distance 2.9, where the circles overlap in a thin lens (the sum of
    the two radii, as binary64 numbers, is above 2.9), [circleOverlap]
    returns NaN: the height of the second segment rounds to about
    -4.4e-16 and the square root is taken of a negative number.  NaN is
    neither at least 0 nor at most any value, so the result is no area, and
    it is not below the overlap at any other distance. *)
Theorem circleOverlap_nearly_tangent :
  circleOverlap 0.2 2.7 2.9 = nan
  /\ (0 <=? circleOverlap 0.2 2.7 2.9) = false
  /\ forall d, (circleOverlap 0.2 2.7 2.9 <=? circleOverlap 0.2 2.7 d) = false.
Proof.
  assert (circleOverlap 0.2 2.7 2.9 = nan) as ->.
  { apply circleOverlap_negative_radicand; vm_compute; reflexivity. }
  split; [reflexivity|]. split; [reflexivity|]. intros d. apply leb_nan_l.
Qed.

End FloatOverlap.

(** ** The outcomes of the Wolfe line search *)

Section LineSearchRounds.
Import Blas1 Fmin.
Local Open Scope float_scope.

Variables (f : Objective) (pk : list float) (current : ConjugateGradientPoint).
Variables (phi0 phiPrime0 c1 c2 : float).

(** The point at which every round evaluates the objective, the value and
    the gradient there, and the slope along [pk]. *)
Variables (xs : list float) (phi : float) (gradient : list float) (phiPrime : float).
Hypothesis Hf : f xs = (phi, gradient).
Hypothesis Hdot : dot gradient pk = Ok phiPrime.

(** [zoom] returns 0 when it runs out of rounds, and otherwise a step that
    passed both tests. *)
Lemma zoom_outcome (n : nat) (next : ConjugateGradientPoint)
  (a_lo a_high phi_lo : float) :
  x next = xs ->
  exists r,
    zoom f pk current phi0 phiPrime0 c1 c2 n next a_lo a_high phi_lo = Ok r
    /\ ((step r = 0 /\ exit r = ZoomExhausted)
        \/ (exit r = Accepted /\ accepted pk phi0 phiPrime0 c1 c2 r
            /\ curvature phiPrime phiPrime0 c2 = true)).
Proof.
  revert next a_lo a_high phi_lo.
  induction n as [|n IH]; intros next a_lo a_high phi_lo Hx.
  { eexists. split; [reflexivity|]. by left. }
  cbn [zoom]. cbv zeta. unfold evaluate. rewrite Hx, Hf. cbn [fxprime].
  rewrite Hdot. cbn [bind].
  destruct (phi >? phi0 + c1 * ((a_lo + a_high) / 2) * phiPrime0) eqn:Hdecrease;
    cbn [orb].
  { by apply IH. }
  destruct (phi >=? phi_lo); cbv iota.
  { by apply IH. }
  destruct (abs phiPrime <=? - c2 * phiPrime0) eqn:Hcurvature; cbv iota.
  2:{ by apply IH. }
  eexists. split; [reflexivity|]. right. split; [done|]. split; [|done].
  exists phiPrime. by cbn.
Qed.

(** The outer loop from round [k] on, with [n] rounds left. *)
Lemma wolfeLoop_outcome (a : float) (n k : nat) (next : ConjugateGradientPoint)
  (a0 phi_old : float) :
  x next = xs ->
  (k <> 0%nat -> phi_old = phi) ->
  exists r,
    wolfeLoop f pk current phi0 phiPrime0 c1 c2 n k next (trial a k) a0 phi_old = Ok r
    /\ if forallb (passes phi phiPrime phi0 phiPrime0 c1 c2 a) (seq k n)
       then step r = trial a (k + n) /\ exit r = DoublingExhausted
       else (step r = 0 /\ exit r = ZoomExhausted)
            \/ (exit r = Accepted /\ accepted pk phi0 phiPrime0 c1 c2 r
                /\ curvature phiPrime phiPrime0 c2 = true).
Proof.
  revert k next a0 phi_old.
  induction n as [|n IH]; intros k next a0 phi_old Hx Hold.
  { eexists. split; [reflexivity|]. cbn. by rewrite Nat.add_0_r. }
  cbn [wolfeLoop seq forallb]. cbv zeta. unfold evaluate. rewrite Hx, Hf.
  cbn [fxprime]. rewrite Hdot. cbn [bind].
  unfold passes at 1. unfold enters, curvature.
  assert (negb (k =? 0)%nat && (phi >=? phi_old)
          = negb (k =? 0)%nat && (phi >=? phi)) as ->.
  { destruct k; [reflexivity|]. by rewrite Hold. }
  destruct (_ || _) eqn:Henters; cbn [negb andb].
  { by apply zoom_outcome. }
  destruct (abs phiPrime <=? - c2 * phiPrime0) eqn:Hcurvature; cbn [negb andb].
  { eexists. split; [reflexivity|]. right. split; [done|]. split; [|done].
    exists phiPrime. apply orb_false_elim in Henters as [Hdecrease _]. by cbn. }
  destruct (phiPrime >=? 0); cbn [negb andb].
  { destruct (zoom_outcome 16 {| x := xs; fx := phi; fxprime := gradient |}
                (trial a k) a0 phi eq_refl) as (r & Hr & Hcase).
    exists r. split; [exact Hr|]. destruct Hcase as [?|(? & ? & Hc)]; [by left|].
    unfold curvature in Hc. congruence. }
  destruct (IH (S k) {| x := xs; fx := phi; fxprime := gradient |}
              (trial a k) phi eq_refl ltac:(done)) as (r & Hr & Hcase).
  exists r. split; [exact Hr|]. rewrite Nat.add_succ_r.
  unfold curvature in Hcase. rewrite Hcurvature in Hcase. exact Hcase.
Qed.

End LineSearchRounds.

Section LineSearchClaim.
Import Blas1 Fmin Inputs.
Local Open Scope float_scope.

(** C7 (as amended): the search returns whenever the two slopes can be
    computed.  When none of the 10 rounds of the outer loop accepts its
    step or enters [zoom], it returns the first step doubled 10 times,
    which is neither 0 nor NaN, so that the caller does not fall back to
    steepest descent.  Otherwise it returns 0, [zoom] having run out of
    its 16 rounds, or a step that passed the sufficient-decrease and the
    curvature test; it returns 0 whenever the curvature test fails at the
    point found, and the first step whenever that step passes both
    tests. *)
Theorem wolfeLineSearch_outcome (f : Objective) (pk : list float)
  (current next : ConjugateGradientPoint) (a : float) (c1 c2 : option float)
  (phiPrime0 phiPrime : float) :
  dot (fxprime current) pk = Ok phiPrime0 ->
  dot (snd (f (x next))) pk = Ok phiPrime ->
  let phi := fst (f (x next)) in
  let phi0 := fx current in
  let first := or_default a 1 in
  let c1' := field_or c1 1e-6 in
  let c2' := field_or c2 0.1 in
  let exhausted :=
    forallb (passes phi phiPrime phi0 phiPrime0 c1' c2' first) (seq 0 10) in
  exists r,
    wolfeLineSearch f pk current next a c1 c2 = Ok r
    /\ (if exhausted then
          step r = trial first 10 /\ truthy (step r) = true
          /\ exit r = DoublingExhausted
        else
          (step r = 0 /\ exit r = ZoomExhausted)
          \/ (exit r = Accepted /\ accepted pk phi0 phiPrime0 c1' c2' r))
    /\ (exhausted = false -> curvature phiPrime phiPrime0 c2' = false -> step r = 0)
    /\ (enters phi phi0 phiPrime0 c1' first 0 = false ->
        curvature phiPrime phiPrime0 c2' = true ->
        step r = first /\ accepted pk phi0 phiPrime0 c1' c2' r).
Proof.
  intros Hdot0 Hdot phi phi0 first c1' c2' exhausted.
  unfold wolfeLineSearch. cbv zeta. rewrite Hdot0. cbn [bind].
  fold phi0 first c1' c2'.
  destruct (wolfeLoop_outcome f pk current phi0 phiPrime0 c1' c2'
              (x next) phi (snd (f (x next))) phiPrime
              ltac:(by destruct (f (x next))) Hdot first 10 0 next 0 phi0
              eq_refl ltac:(done)) as (r & Hr & Hcase).
  fold exhausted in Hcase. change (trial first 0) with first in Hr.
  exists r. split; [exact Hr|]. split; [|split].
  - destruct exhausted; [|destruct Hcase as [?|(? & ? & _)]; auto].
    destruct Hcase as [Hstep Hexit]. split; [done|]. split; [|done].
    rewrite Hstep. apply truthy_doubled, truthy_or_default.
  - intros Hno Hcurvature. rewrite Hno in Hcase.
    destruct Hcase as [[? _]|(_ & _ & Hc)]; [done | congruence].
  - intros Henters Hcurvature.
    cbn [wolfeLoop] in Hr. cbv zeta in Hr. unfold evaluate in Hr.
    destruct (f (x next)) as [v g] eqn:Hf. cbn [fxprime snd] in Hr, Hdot.
    rewrite Hdot in Hr. cbn [bind] in Hr.
    unfold enters in Henters. change (trial first 0) with first in Henters.
    cbn [Nat.eqb negb andb] in Henters.
    rewrite orb_false_r in Henters. subst phi. cbn [fst] in Henters.
    cbn [Nat.eqb negb andb] in Hr. rewrite orb_false_r, Henters in Hr.
    unfold curvature in Hcurvature. rewrite Hcurvature in Hr.
    injection Hr as <-. split; [done|]. exists phiPrime. by cbn.
Qed.

(** C7 (counterexample): on an objective that is NaN the outer loop runs
    out of its 10 rounds without accepting a step, and the search returns
    1024, which the caller does not take for a failure. *)
Lemma wolfeLineSearch_exhausted_returns_1024 :
  exists r,
    wolfeLineSearch undefinedObjective [-1] start start 1 None None = Ok r
    /\ exit r = DoublingExhausted
    /\ step r = 1024
    /\ truthy (step r) = true.
Proof. eexists. vm_compute. repeat split. Qed.

End LineSearchClaim.

Lemma wolfeLineSearch_outcome_witness :
  exists r,
    Fmin.wolfeLineSearch Inputs.undefinedObjective [(-1)%float] Inputs.start
      Inputs.start 1%float None None = Ok r
    /\ Fmin.step r = 1024%float.
Proof.
  destruct (wolfeLineSearch_outcome Inputs.undefinedObjective [(-1)%float]
              Inputs.start Inputs.start 1%float None None (-1)%float (-1)%float
              eq_refl eq_refl) as (r & Hr & Hcase & _).
  exists r. split; [exact Hr|].
  vm_compute in Hcase. destruct Hcase as [Hstep _]. exact Hstep.
Defined.

(** ** Intersection points and the walk around them *)

Section IntersectionPointsFacts.
Context {num : Type} {N : Number num}.

Lemma circleCircleIntersection_points (c1 c2 : Circle num) (q : Point2d num) :
  In q (circleCircleIntersection c1 c2) -> q = point (px q) (py q).
Proof.
  unfold circleCircleIntersection. cbv zeta.
  destruct (_ || _)%bool; simpl; [done|].
  intros [<- | [<- | []]]; reflexivity.
Qed.

Lemma getIntersectionPoints_from_crossing (pre circles : list (Circle num))
  (p : Point2d num) :
  In p (getIntersectionPoints_from (length pre) circles) ->
  crossing (pre ++ circles) p.
Proof.
  revert pre. induction circles as [|ci rest IH]; intros pre; simpl; [done|].
  rewrite in_app_iff, in_concat. intros [(l & Hl & Hp) | Hp].
  - apply list_elem_of_In, elem_of_lookup_imap in Hl as (k & cj & -> & Hk).
    apply in_map_iff in Hp as (q & <- & Hq).
    exists (length pre), (length pre + 1 + k)%nat, ci, cj. cbn.
    split; [done|]. split; [lia|]. split.
    { rewrite lookup_app_r by lia. by rewrite Nat.sub_diag. }
    split.
    { rewrite lookup_app_r by lia.
      replace (length pre + 1 + k - length pre)%nat with (S k) by lia. done. }
    by rewrite <- (circleCircleIntersection_points _ _ _ Hq).
  - specialize (IH (pre ++ [ci])). rewrite length_app, Nat.add_1_r in IH.
    rewrite <- app_assoc in IH. by apply IH.
Qed.

Lemma getIntersectionPoints_crossing (circles : list (Circle num)) :
  Forall (crossing circles) (getIntersectionPoints circles).
Proof.
  apply List.Forall_forall. intros p Hp.
  by apply (getIntersectionPoints_from_crossing []).
Qed.

Lemma insert_sorted_Permutation {A : Type} (before : A -> A -> bool) (a : A)
  (l : list A) : Permutation (insert_sorted before a l) (a :: l).
Proof.
  induction l as [|b l IH]; simpl; [done|].
  destruct (before b a); [|done].
  rewrite IH. apply perm_swap.
Qed.

Lemma Array_sort_Permutation {A : Type} (before : A -> A -> bool) (l : list A) :
  Permutation (Array_sort before l) l.
Proof.
  induction l as [|a l IH]; simpl; [done|].
  unfold Array_sort in *. simpl. rewrite insert_sorted_Permutation. by constructor.
Qed.

End IntersectionPointsFacts.

Section IntersectionAreaTotal.
Context {num : Type} {N : Number num} {T : Trig num}.
Variable SMALL : num.

Lemma crossing_parents (circles : list (Circle num)) (p : Point2d num) :
  crossing circles p ->
  Forall (fun idx => (idx < length circles)%nat) (parentIndex p).
Proof.
  intros (i & j & ci & cj & -> & _ & Hi & Hj & _).
  repeat constructor; by eapply lookup_lt_Some.
Qed.

(** A point and itself have a parent in common. *)
Lemma crossing_shares_parent (circles : list (Circle num)) (p : Point2d num) :
  crossing circles p ->
  existsb (fun idx => existsb (Nat.eqb idx) (parentIndex p)) (parentIndex p) = true.
Proof.
  intros (i & j & ci & cj & -> & _). cbn. by rewrite Nat.eqb_refl.
Qed.

(** The loop over the parents of [p1], started with [arc] still [null]:
    the first parent that [p2] has too makes it assign to [arc]. *)
Lemma narrowestArc_null (circles : list (Circle num)) (q1 q2 midPoint : Point2d num)
  (parents : list nat) :
  Forall (fun idx => (idx < length circles)%nat) parents ->
  narrowestArc circles q1 q2 midPoint None parents
  = if existsb (fun idx => existsb (Nat.eqb idx) (parentIndex q2)) parents
    then AssignmentToConstant else Ok None.
Proof.
  induction 1 as [|idx parents Hidx _ IH]; cbn [narrowestArc existsb]; [done|].
  unfold narrowerArc at 1.
  destruct (existsb (Nat.eqb idx) (parentIndex q2)); cbn [orb bind]; [|exact IH].
  by destruct (lookup_lt_is_Some_2 circles idx Hidx) as [c ->].
Qed.

(** The walk around the sorted points never passes the point it started
    from: that point is the last of them, and it shares its parents with
    itself. *)
Lemma walkPoints_throws (circles : list (Circle num)) (points : list (Point2d num))
  (w : Walk) :
  Forall (crossing circles) points ->
  In (walk_p2 w) points ->
  walkPoints circles w points = AssignmentToConstant.
Proof.
  intros Hall. revert w. induction Hall as [|q1 points Hq1 _ IH]; intros w Hin;
    cbn [walkPoints]; [done|].
  unfold walkStep at 1. cbv zeta.
  rewrite narrowestArc_null by by apply crossing_parents.
  destruct (existsb _ (parentIndex q1)) eqn:Hshared; cbn [bind]; [done|].
  apply IH. cbn [walk_p2]. destruct Hin as [Heq | Hin]; [|done].
  rewrite <- Heq in Hshared.
  by rewrite (crossing_shares_parent circles q1) in Hshared.
Qed.

Lemma innerPoints_crossing (circles : list (Circle num)) :
  Forall (crossing circles)
    (filter (fun p => Is_true (containedInCircles SMALL p circles))
       (getIntersectionPoints circles)).
Proof.
  apply Forall_forall. intros p [_ Hp]%list_elem_of_filter.
  pose proof (getIntersectionPoints_crossing circles) as Hall.
  rewrite Forall_forall in Hall. by apply Hall.
Qed.

Lemma sortedPoints_Permutation (center : Point2d num) (points : list (Point2d num)) :
  Permutation
    (map snd
       (Array_sort (fun a b => nltb (nsub (fst b) (fst a)) (lit 0))
          (map (fun p => (Math_atan2 (nsub (px p) (px center))
                            (nsub (py p) (py center)), p)) points)))
    points.
Proof.
  rewrite Array_sort_Permutation, map_map. cbn. by rewrite map_id.
Qed.

(** With two or more inner points the call does not return. *)
Lemma intersectionArea_polygon_throws (circles : list (Circle num))
  (stats : option (Stats num)) :
  (1 <? length (filter (fun p => Is_true (containedInCircles SMALL p circles))
                  (getIntersectionPoints circles)))%nat = true ->
  intersectionArea SMALL circles stats = AssignmentToConstant.
Proof.
  intros Hmany.
  pose proof (innerPoints_crossing circles) as Hinner.
  unfold intersectionArea. cbv zeta.
  set (inner := filter _ (getIntersectionPoints circles)) in *.
  rewrite Hmany.
  set (center := getCenter inner).
  pose proof (sortedPoints_Permutation center inner) as Hperm.
  set (sorted := map snd _) in *.
  destruct (last sorted) as [q2|] eqn:Hlast.
  2:{ apply last_None in Hlast. rewrite Hlast in Hperm.
      apply Permutation_nil in Hperm. rewrite Hperm in Hmany. done. }
  cbn [defined bind].
  rewrite walkPoints_throws; [done | by rewrite Hperm |].
  cbn [walk_p2]. apply list_elem_of_In. rewrite last_lookup in Hlast.
  by eapply list_elem_of_lookup_2.
Qed.

(** X1: [intersectionArea] returns exactly when it is given a circle and
    fewer than two intersection points lie in all the circles.  With no
    circle the [reduce] over the empty array throws; with two or more inner
    points the walk around them assigns to [arc], which is declared
    [const], and throws.  When the call returns, the [stats] object holds
    the value returned as [area], the sum of [arcArea] and [polygonArea],
    all intersection points and the inner points, and at most the one arc
    of a whole circle. *)
Theorem intersectionArea_returns_without_polygon (circles : list (Circle num))
  (stats : option (Stats num)) :
  let inner :=
    filter (fun p => Is_true (containedInCircles SMALL p circles))
      (getIntersectionPoints circles) in
  match circles with
  | [] =>
      intersectionArea SMALL circles stats
      = Throw "TypeError: Reduce of empty array with no initial value"
  | _ :: _ =>
      if (1 <? length inner)%nat then
        intersectionArea SMALL circles stats = AssignmentToConstant
      else
        exists a s,
          intersectionArea SMALL circles stats = Ok (a, s)
          /\ match stats, s with
             | None, None => True
             | Some _, Some st =>
                 area st = a
                 /\ area st = nadd (arcArea st) (polygonArea st)
                 /\ intersectionPoints st = getIntersectionPoints circles
                 /\ innerPoints st = inner
                 /\ (length (arcs st) <= 1)%nat
             | _, _ => False
             end
  end.
Proof.
  intros inner. destruct circles as [|c cs]; [reflexivity|].
  set (circles := c :: cs) in *.
  destruct (1 <? length inner)%nat eqn:Hmany.
  { by apply intersectionArea_polygon_throws. }
  unfold intersectionArea. cbv zeta. fold inner. rewrite Hmany.
  cbn [Array_reduce circles bind].
  destruct (negb _); cbn; destruct stats; eexists _, _;
    (split; [reflexivity|]); cbn; auto 10.
Qed.

End IntersectionAreaTotal.

Section CrossingCircles.
Context {T : Trig float}.
Import Inputs.
Local Open Scope float_scope.

(** Two unit circles with centres 1 apart cross in two points, both inner
    points: the call throws. *)
Example intersectionArea_crossing_circles (stats : option (Stats float)) :
  intersectionArea 1e-10 [unitCircle; nearCircle] stats = AssignmentToConstant.
Proof. apply intersectionArea_polygon_throws. vm_compute. reflexivity. Qed.

End CrossingCircles.

(** ** Areas without a polygon, on binary64 *)

Section FloatFewPoints.
Context {T : Trig float}.
Variable SMALL : float.
Local Open Scope float_scope.

(** On binary64 no circle passes the test against itself either: the two
    sides are 0 or NaN. *)
Lemma float_self_test (c : Circle float) :
  nltb (Math_abs (nsub (radius c) (radius c))) (distance c c) = false.
Proof.
  unfold distance. cbn.
  destruct (float_sub_diag (x c)) as [-> | ->], (float_sub_diag (y c)) as [-> | ->],
    (float_sub_diag (radius c)) as [-> | ->]; reflexivity.
Qed.

Lemma float_smallest_never_contained (circles : list (Circle float))
  (smt : Circle float) :
  In smt circles ->
  forallb (fun c => nltb (Math_abs (nsub (radius smt) (radius c))) (distance c smt))
    circles = false.
Proof.
  intros Hin. apply not_true_is_false. intros Hall.
  rewrite forallb_forall in Hall. specialize (Hall smt Hin).
  by rewrite float_self_test in Hall.
Qed.

(** The branch for fewer than two inner points, on binary64. *)
Lemma float_few_points_zero (c : Circle float)
  (cs : list (Circle float)) (stats : option (Stats float)) :
  (length (filter (fun p => Is_true (containedInCircles SMALL p (c :: cs)))
             (getIntersectionPoints (c :: cs))) <= 1)%nat ->
  exists s,
    intersectionArea SMALL (c :: cs) stats = Ok (0, s)
    /\ match stats, s with
       | None, None => True
       | Some _, Some st =>
           area st = 0 /\ arcArea st = 0 /\ polygonArea st = 0 /\ arcs st = []
       | _, _ => False
       end.
Proof.
  intros Hfew. apply Nat.ltb_ge in Hfew.
  unfold intersectionArea. cbv zeta. rewrite Hfew.
  cbn [Array_reduce bind].
  rewrite float_smallest_never_contained by apply fold_smallest_In.
  cbn. destruct stats; eexists; (split; [reflexivity|]); cbn; auto.
Qed.

(** X2: on binary64, whenever fewer than two intersection points lie in all
    the circles, [intersectionArea] returns 0 and records no arc, for every
    non-empty list of circles: the branch that gives the area of the
    smallest circle is never taken, so a circle inside all the others (and a
    single circle) has area 0 as well. *)
Theorem intersectionArea_few_points_is_zero (c : Circle float)
  (cs : list (Circle float)) (stats : option (Stats float)) :
  (length (filter (fun p => Is_true (containedInCircles SMALL p (c :: cs)))
             (getIntersectionPoints (c :: cs))) <= 1)%nat ->
  exists s,
    intersectionArea SMALL (c :: cs) stats = Ok (0, s)
    /\ match stats, s with
       | None, None => True
       | Some _, Some st =>
           area st = 0 /\ arcArea st = 0 /\ polygonArea st = 0 /\ arcs st = []
       | _, _ => False
       end.
Proof. apply float_few_points_zero. Qed.

End FloatFewPoints.

Lemma intersectionArea_few_points_is_zero_witness :
  exists s,
    intersectionArea (T := Inputs.mathConstants) 1e-10%float
      [Inputs.unitCircle; Inputs.farCircle] None = Ok (0%float, s)
    /\ s = None.
Proof.
  destruct (intersectionArea_few_points_is_zero (T := Inputs.mathConstants) 1e-10%float
              Inputs.unitCircle [Inputs.farCircle] None) as (s & Hs & Hstats).
  { vm_compute. lia. }
  exists s. split; [exact Hs|]. destruct s; [destruct Hstats | reflexivity].
Defined.

Section AreaPathFacts.
Context {T : Trig float}.
Variable SMALL : float.
Variable toString : float -> string.
Local Open Scope float_scope.

(** X3: the path of the intersection area of a single circle is the empty
    path [M 0 0], whatever the circle: [intersectionArea] records no arc for
    it, and the branch that would draw the circle is not reached. With no
    circle at all the call throws. *)
Theorem intersectionAreaPath_single_circle (c : Circle float) :
  Diagram.intersectionAreaPath SMALL toString [c] = Ok "M 0 0"%string
  /\ exists msg, Diagram.intersectionAreaPath SMALL toString [] = Throw msg.
Proof.
  split; [|by eexists].
  unfold Diagram.intersectionAreaPath. cbv zeta.
  edestruct (float_few_points_zero SMALL c []) as (s & -> & Hs).
  { cbn. lia. }
  cbn [bind snd]. destruct s as [st|]; [|done].
  destruct Hs as (_ & _ & _ & Harcs). cbn. by rewrite Harcs.
Qed.

End AreaPathFacts.

Section NoArcFacts.
Context {T : Trig float}.
Variable SMALL : float.
Variable toString : float -> string.
Local Open Scope float_scope.

(** X28: on binary64 [intersectionArea] records no arc and returns no area
    but 0: whenever it returns, the value is 0 and [stats.arcs] is empty,
    and it throws exactly for no circle and for two or more inner points.
    So the path [intersectionAreaPath] returns is [M 0 0] whenever it
    returns one; the branches that draw a circle or a chain of arcs are
    never reached. *)
Theorem intersectionArea_records_no_arc (circles : list (Circle float))
  (stats : Stats float) :
  let inner :=
    filter (fun p => Is_true (containedInCircles SMALL p circles))
      (getIntersectionPoints circles) in
  match intersectionArea SMALL circles (Some stats) with
  | Ok (a, Some st) =>
      a = 0 /\ area st = 0 /\ arcs st = []
      /\ circles <> [] /\ (length inner <= 1)%nat
  | Ok (_, None) => False
  | Throw _ => circles = [] \/ (1 < length inner)%nat
  end
  /\ match Diagram.intersectionAreaPath SMALL toString circles with
     | Ok path => path = "M 0 0"%string
     | Throw _ => circles = [] \/ (1 < length inner)%nat
     end.
Proof.
  intros inner. unfold Diagram.intersectionAreaPath. cbv zeta.
  destruct circles as [|c cs]; [split; by left|].
  destruct (1 <? length inner)%nat eqn:Hmany.
  - rewrite !intersectionArea_polygon_throws by exact Hmany.
    apply Nat.ltb_lt in Hmany. split; by right.
  - apply Nat.ltb_ge in Hmany.
    destruct (float_few_points_zero SMALL c cs (Some stats) Hmany) as (s & -> & Hs).
    destruct (float_few_points_zero SMALL c cs
                (Some {| area := nan; arcArea := nan; polygonArea := nan; arcs := [];
                         innerPoints := []; intersectionPoints := [] |}) Hmany)
      as (s' & -> & Hs').
    destruct s as [st|]; [|done]. destruct s' as [st'|]; [|done].
    destruct Hs as (Harea & _ & _ & Harcs). destruct Hs' as (_ & _ & _ & Harcs').
    cbn [bind snd defined]. rewrite Harcs'. done.
Qed.

End NoArcFacts.

(** ** The parents of the intersection points *)

Section IntersectionPointsCount.

Lemma concat_imap_length {A B : Type} (f : nat -> A -> list B) (l : list A)
  (n : nat) :
  (forall k a, length (f k a) <= n)%nat ->
  (length (concat (imap f l)) <= n * length l)%nat.
Proof.
  revert f. induction l as [|a l IH]; intros f Hf; simpl; [lia|].
  rewrite length_app. specialize (IH (f ∘ S)). specialize (Hf 0%nat a) as Ha.
  assert (length (concat (imap (f ∘ S) l)) <= n * length l)%nat
    by (apply IH; intros; apply Hf).
  lia.
Qed.

Lemma getIntersectionPoints_from_length {num : Type} {N : Number num}
  (circles : list (Circle num)) (i : nat) :
  (length (getIntersectionPoints_from i circles)
   <= length circles * (length circles - 1))%nat.
Proof.
  revert i. induction circles as [|ci rest IH]; intros i; simpl; [lia|].
  rewrite length_app. specialize (IH (S i)).
  match goal with
  | |- (length (concat (imap ?f rest)) + _ <= _)%nat =>
      assert (length (concat (imap f rest)) <= 2 * length rest)%nat as Hrow
  end.
  { apply concat_imap_length. intros k cj. rewrite length_map.
    unfold circleCircleIntersection. cbv zeta.
    destruct (_ || _)%bool; simpl; lia. }
  rewrite Nat.sub_0_r. nia.
Qed.

(** X5: every point of [getIntersectionPoints] names two circles of the
    list as its parents, the first before the second, and is one of the
    points [circleCircleIntersection] gives for them; [n] circles give at
    most [n (n - 1)] points.  This holds in binary64 as in any arithmetic. *)
Theorem getIntersectionPoints_parents {num : Type} {N : Number num}
  (circles : list (Circle num)) :
  Forall (fun p =>
            exists (i j : nat) (ci cj : Circle num),
              parentIndex p = [i; j] /\ (i < j)%nat
              /\ circles !! i = Some ci /\ circles !! j = Some cj
              /\ In (point (px p) (py p)) (circleCircleIntersection ci cj))
         (getIntersectionPoints circles)
  /\ (length (getIntersectionPoints circles)
      <= length circles * (length circles - 1))%nat.
Proof.
  split; [|apply getIntersectionPoints_from_length].
  apply getIntersectionPoints_crossing.
Qed.

End IntersectionPointsCount.

(** ** Areas, in exact arithmetic *)

Section RealAreas.
Local Open Scope R_scope.

(** X6: in exact arithmetic the overlap of two circles does not depend on
    the order in which the radii are given. *)
Theorem circleOverlap_sym (r1 r2 d : R) :
  circleOverlap r1 r2 d = circleOverlap r2 r1 d.
Proof.
  unfold circleOverlap. cbn [nleb nadd nsub nmul ndiv Math_abs Math_min lit
                             Math_PI R_Number R_Trig].
  rewrite (Rplus_comm r2 r1), (Rabs_minus_sym r2 r1), (Rmin_comm r2 r1).
  destruct (Rleb (r1 + r2) d); [reflexivity|].
  destruct (Rleb d (Rabs (r1 - r2))); [reflexivity|].
  apply Rplus_comm.
Qed.

End RealAreas.

(** ** Vectors *)

Section Blas1Algebra.
Import Blas1.
Local Open Scope float_scope.

Lemma dot_sum_comm (a b : list float) (acc : float) :
  fold_left (fun p c => p + fst c * snd c) (zip a b) acc
  = fold_left (fun p c => p + fst c * snd c) (zip b a) acc.
Proof.
  revert b acc. induction a as [|u a IH]; intros [|v b] acc; simpl; try done.
  rewrite (float_mul_comm u v). apply IH.
Qed.

(** X10: [dot] throws exactly when its arguments differ in length, and on
    binary64 it does not depend on the order of its arguments, although it
    sums from left to right; [norm2], which takes the product of a vector
    with itself, never throws. *)
Theorem dot_comm (a b : list float) :
  dot a b = dot b a
  /\ (length a <> length b <-> dot a b = Throw "must be the same size")
  /\ exists v, norm2 a = Ok v.
Proof.
  split; [|split].
  - unfold dot. cbv zeta. rewrite (Nat.eqb_sym (length b) (length a)).
    destruct (Nat.eqb (length a) (length b)); cbn; [|done].
    by rewrite dot_sum_comm.
  - unfold dot. cbv zeta.
    destruct (Nat.eqb_spec (length a) (length b)) as [Heq | Hne]; cbn.
    + split; [done | discriminate].
    + split; [done | by intros _].
  - unfold norm2, dot. cbv zeta. rewrite Nat.eqb_refl. cbn. eauto.
Qed.

(** X11: where [v1] or [v2] is shorter than [ret], [weightedSum] reads
    [undefined] and the entry it computes is NaN, whatever the weights; the
    result always has the length of [ret]. *)
Theorem weightedSum_out_of_range (ret v1 v2 : list float) (w1 w2 : float)
  (i : nat) :
  (i < length ret)%nat -> (length v1 <= i \/ length v2 <= i)%nat ->
  weightedSum ret w1 v1 w2 v2 !! i = Some nan
  /\ length (weightedSum ret w1 v1 w2 v2) = length ret.
Proof.
  intros Hi Hout. split; [|apply length_imap].
  unfold weightedSum. rewrite list_lookup_imap.
  destruct (lookup_lt_is_Some_2 ret i Hi) as [item ->]. cbn. f_equal.
  unfold at_index. destruct Hout as [Hout | Hout].
  - rewrite (lookup_ge_None_2 v1 i Hout). cbn. by rewrite mul_nan_r, add_nan_l.
  - rewrite (lookup_ge_None_2 v2 i Hout). cbn. by rewrite mul_nan_r, add_nan_r.
Qed.

Lemma weightedSum_out_of_range_witness :
  weightedSum [0; 0] 1 [5] 2 [6; 7] !! 1%nat = Some nan
  /\ length (weightedSum [0; 0] 1 [5] 2 [6; 7]) = length [0; 0].
Proof. apply weightedSum_out_of_range; [cbn; lia | left; cbn; lia]. Defined.

Lemma scale_lookup_lt (ret value : list float) (c v : float) (i : nat) :
  value !! i = Some v -> scale ret value c !! i = Some (v * c).
Proof.
  intros Hv. unfold scale. rewrite lookup_app_l.
  - by rewrite list_lookup_fmap, Hv.
  - rewrite length_map. by eapply lookup_lt_Some.
Qed.

Lemma scale_lookup_ge (ret value : list float) (c : float) (i : nat) :
  (length value <= i)%nat -> scale ret value c !! i = ret !! i.
Proof.
  intros Hi. unfold scale. rewrite lookup_app_r by (rewrite length_map; lia).
  rewrite length_map, lookup_drop. f_equal. lia.
Qed.

Lemma scale_length (ret value : list float) (c : float) :
  length (scale ret value c) = Nat.max (length ret) (length value).
Proof. unfold scale. rewrite length_app, length_map, length_drop. lia. Qed.

(** X12: [scale(ret, value, c)] writes into the array [ret] itself:
    afterwards [ret[i]] is [value[i] * c] at every index of [value], the
    entries of [ret] past the end of [value] are as before, [ret] is as long
    as the longer of the two, and every other array is untouched. *)
Theorem scale_overwrites_ret (h : heap) (ret value : loc) (c : float)
  (aret avalue : list float) :
  h !! ret = Some aret -> h !! value = Some avalue ->
  exists (h' : heap) (aret' : list float),
    scale_ref h ret value c = Ok h'
    /\ h' !! ret = Some aret'
    /\ (forall l : loc, l <> ret -> h' !! l = h !! l)
    /\ length aret' = Nat.max (length aret) (length avalue)
    /\ (forall i v, avalue !! i = Some v -> aret' !! i = Some (v * c))
    /\ (forall i, (length avalue <= i)%nat -> aret' !! i = aret !! i).
Proof.
  intros Hret Hvalue.
  destruct (scale_writes_ret h ret value c aret avalue Hret Hvalue)
    as (h' & Hrun & Hnew & Hframe).
  exists h', (scale aret avalue c). repeat split; try done.
  - apply scale_length.
  - intros i v. apply scale_lookup_lt.
  - intros i. apply scale_lookup_ge.
Qed.

Lemma scale_overwrites_ret_witness :
  exists (h' : heap) (aret' : list float),
    scale_ref [[9]; [1; 2]] 0 1 3 = Ok h'
    /\ h' !! 0%nat = Some aret'
    /\ (forall l : loc, l <> 0%nat -> h' !! l = [[9]; [1; 2]] !! l)
    /\ length aret' = Nat.max (length [9]) (length [1; 2])
    /\ (forall i v, [1; 2] !! i = Some v -> aret' !! i = Some (v * 3))
    /\ (forall i, (length [1; 2] <= i)%nat -> aret' !! i = [9] !! i).
Proof. by apply (scale_overwrites_ret [[9]; [1; 2]] 0 1 3 [9] [1; 2]). Defined.

End Blas1Algebra.

(** ** The two line searches side by side *)

Section SearchesAgree.
Import Blas1.
Local Open Scope float_scope.

Variables (f : Objective) (pk : list float).
Variables (current : BigRewrites.ConjugateGradientPoint).
Variables (phi0 phiPrime0 c1 c2 : float).

Lemma evaluate_forget (next : BigRewrites.ConjugateGradientPoint) :
  fst (Fmin.evaluate f (forget next)) = fst (BigRewrites.evaluate f next)
  /\ snd (Fmin.evaluate f (forget next)) = forget (snd (BigRewrites.evaluate f next)).
Proof.
  unfold Fmin.evaluate, BigRewrites.evaluate, forget. cbn.
  by destruct (f (BigRewrites.arguments next)).
Qed.

Lemma zoom_agree (n : nat) (next : BigRewrites.ConjugateGradientPoint)
  (a_lo a_high phi_lo : float) :
  agree (BigRewrites.zoom f pk current phi0 phiPrime0 c1 c2 n next a_lo a_high phi_lo)
    (Fmin.zoom f pk (forget current) phi0 phiPrime0 c1 c2 n (forget next)
       a_lo a_high phi_lo).
Proof.
  revert next a_lo a_high phi_lo.
  induction n as [|n IH]; intros next a_lo a_high phi_lo; [by cbn|].
  cbn [BigRewrites.zoom Fmin.zoom]. cbv zeta.
  destruct (evaluate_forget next) as [Hphi Hnext].
  destruct (Fmin.evaluate f (forget next)) as [phi' next'].
  destruct (BigRewrites.evaluate f next) as [phi next1].
  cbn [fst snd] in *. subst phi' next'.
  change (Fmin.fxprime (forget next1)) with (BigRewrites.fxprime next1).
  destruct (dot (BigRewrites.fxprime next1) pk) as [phiPrime|msg]; cbn [bind];
    [|by cbn].
  destruct (_ || _); [apply IH|].
  destruct (abs phiPrime <=? - c2 * phiPrime0); [by cbn | apply IH].
Qed.

Lemma wolfeLoop_agree (n iteration : nat) (next : BigRewrites.ConjugateGradientPoint)
  (a a0 phi_old : float) :
  agree (BigRewrites.wolfeLoop f pk current phi0 phiPrime0 c1 c2 n iteration next
           a a0 phi_old)
    (Fmin.wolfeLoop f pk (forget current) phi0 phiPrime0 c1 c2 n iteration
       (forget next) a a0 phi_old).
Proof.
  revert iteration next a a0 phi_old.
  induction n as [|n IH]; intros iteration next a a0 phi_old; [by cbn|].
  cbn [BigRewrites.wolfeLoop Fmin.wolfeLoop]. cbv zeta.
  destruct (evaluate_forget next) as [Hphi Hnext].
  destruct (Fmin.evaluate f (forget next)) as [phi' next'].
  destruct (BigRewrites.evaluate f next) as [phi next1].
  cbn [fst snd] in *. subst phi' next'.
  change (Fmin.fxprime (forget next1)) with (BigRewrites.fxprime next1).
  destruct (dot (BigRewrites.fxprime next1) pk) as [phiPrime|msg]; cbn [bind];
    [|by cbn].
  destruct (_ || _); [apply zoom_agree|].
  destruct (abs phiPrime <=? - c2 * phiPrime0); [by cbn|].
  destruct (phiPrime >=? 0); [apply zoom_agree | apply IH].
Qed.

End SearchesAgree.

Section RewrittenDescent.
Import Blas1.
Local Open Scope float_scope.

(** X15: called as [conjugateGradient] calls them, without [c1] and [c2],
    the line search of the rewritten version and that of the first version
    return the same step and leave the same [next], or throw the same
    error, on every objective, direction and pair of points. *)
Theorem wolfeLineSearch_rewrite_agrees (f : Objective) (pk : list float)
  (current next : BigRewrites.ConjugateGradientPoint) (a : float) :
  agree (BigRewrites.wolfeLineSearch f pk current next a None None)
    (Fmin.wolfeLineSearch f pk (forget current) (forget next) a None None).
Proof.
  unfold BigRewrites.wolfeLineSearch, Fmin.wolfeLineSearch. cbv zeta.
  change (Fmin.fxprime (forget current)) with (BigRewrites.fxprime current).
  destruct (dot (BigRewrites.fxprime current) pk) as [phiPrime0|msg]; cbn [bind];
    [|by cbn].
  apply wolfeLoop_agree.
Qed.

End RewrittenDescent.

(** ** Bisection on points *)

Section Bisect2dFacts.
Import Bisect2d.
Local Open Scope float_scope.

Variable toString : float -> string.
Hypothesis toString_nan : toString nan = "NaN"%string.

Lemma toText_plus (v : Value) :
  toText (plus toString v nan) = (toText v ++ "NaN")%string.
Proof. unfold plus. cbn [toText]. by rewrite toString_nan. Qed.




End Bisect2dFacts.


(** ** Anchors and paths *)

Section ShortPaths.
Import Diagram.
Local Open Scope float_scope.

Variable parseFloat : string -> float.

(** X19: [circleFromPath] reads the radius from the fifth token: for a path
    of fewer than five tokens (such as [M 0 0], the path of an empty area)
    the radius of the circle it returns is NaN, and for a path without a
    blank all three numbers are. *)
Theorem circleFromPath_short_path (path : string) :
  (length (split path) <= 4)%nat ->
  radius (circleFromPath parseFloat path) = nan
  /\ ((length (split path) <= 1)%nat ->
      x (circleFromPath parseFloat path) = nan
      /\ y (circleFromPath parseFloat path) = nan).
Proof.
  intros Hshort. unfold circleFromPath, parseToken. cbn [x y radius].
  split.
  - by rewrite (lookup_ge_None_2 (split path) 4 Hshort).
  - intros Hone. rewrite !lookup_ge_None_2 by lia. done.
Qed.

End ShortPaths.

Lemma circleFromPath_short_path_witness :
  radius (Diagram.circleFromPath Inputs.parseDecimal "M 0 0") = nan
  /\ ((length (Diagram.split "M 0 0") <= 1)%nat ->
      x (Diagram.circleFromPath Inputs.parseDecimal "M 0 0") = nan
      /\ y (Diagram.circleFromPath Inputs.parseDecimal "M 0 0") = nan).
Proof.
  apply (circleFromPath_short_path Inputs.parseDecimal "M 0 0"). cbn. lia.
Defined.

Section AnchorRecursion.
Import Blas1 Diagram.
Local Open Scope float_scope.

Context {T : Trig float}.
Variable SMALL : float.

(** The body calls [again] on the interior circles and no exterior one, if
    at all. *)
Lemma computeTextCentre_body_ext
  (again again' : list (Circle float) -> list (Circle float) -> Result TextCentre)
  (interior exterior : list (Circle float)) :
  again interior [] = again' interior [] ->
  computeTextCentre_body SMALL again interior exterior
  = computeTextCentre_body SMALL again' interior exterior.
Proof.
  intros Hsame. unfold computeTextCentre_body.
  destruct (refine interior exterior) as [ret|]; cbn [bind]; [|reflexivity].
  destruct (negb (valid _ _ _ _)); [|reflexivity].
  destruct (Nat.eqb (length interior) 1); [reflexivity|].
  destruct (intersectionArea SMALL interior _) as [[a s]|]; cbn [bind]; [|reflexivity].
  destruct (defined (snd (a, s))) as [st|]; cbn [bind]; [|reflexivity].
  destruct (arcs st) as [|arc [|arc' rest]]; [reflexivity | reflexivity|].
  destruct (negb (Nat.eqb (length exterior) 0)); [exact Hsame | reflexivity].
Qed.

(** Without an exterior circle it makes no call. *)
Lemma computeTextCentre_body_nil
  (again again' : list (Circle float) -> list (Circle float) -> Result TextCentre)
  (interior : list (Circle float)) :
  computeTextCentre_body SMALL again interior []
  = computeTextCentre_body SMALL again' interior [].
Proof.
  unfold computeTextCentre_body.
  destruct (refine interior []) as [ret|]; cbn [bind]; [|reflexivity].
  destruct (negb (valid _ _ _ _)); [|reflexivity].
  destruct (Nat.eqb (length interior) 1); [reflexivity|].
  destruct (intersectionArea SMALL interior _) as [[a s]|]; cbn [bind]; [|reflexivity].
  destruct (defined (snd (a, s))) as [st|]; cbn [bind]; [|reflexivity].
  by destruct (arcs st) as [|arc [|arc' rest]].
Qed.

End AnchorRecursion.

Section MarginFacts.
Import Diagram.
Local Open Scope float_scope.

(** The loop that keeps the least value seen. *)
Lemma least_fold {A : Type} (g : A -> float) (l : list A) (m0 : float) :
  is_nan m0 = false ->
  let r := fold_left (fun margin c => if g c <=? margin then g c else margin) l m0 in
  is_nan r = false
  /\ (r = m0 \/ In r (map g l))
  /\ (r <=? m0) = true
  /\ Forall (fun c => is_nan (g c) = false -> (r <=? g c) = true) l.
Proof.
  revert m0. induction l as [|c l IH]; intros m0 Hm0; cbn [fold_left map].
  { repeat split; [done | by left | by apply float_leb_refl | constructor]. }
  destruct (g c <=? m0) eqn:Hle.
  - destruct (float_leb_not_nan _ _ Hle) as [Hc _].
    destruct (IH (g c) Hc) as (Hr & Hin & Hrc & Hall).
    cbv zeta in *. repeat split; [done | | by eapply float_leb_trans |].
    + right. destruct Hin as [-> | Hin]; [by left | by right].
    + by constructor.
  - destruct (IH m0 Hm0) as (Hr & Hin & Hrm & Hall).
    cbv zeta in *. repeat split; [done | | done |].
    + destruct Hin as [-> | Hin]; [by left | right; by right].
    + constructor; [|done]. intros Hc. eapply float_leb_trans; [exact Hrm|].
      by apply float_leb_total.
Qed.

(** X22: when the signed distance to the first interior circle is a number,
    [circleMargin] returns the least of the signed distances to all the
    circles (radius minus distance for an interior circle, distance minus
    radius for an exterior one) that are numbers: it is one of them and
    none of them is below it. *)
Theorem circleMargin_is_least {P : Type} `{HasXY float P} (current : P)
  (c : Circle float) (interior exterior : list (Circle float)) :
  is_nan (radius c - distance c current) = false ->
  exists m,
    circleMargin current (c :: interior) exterior = Ok m
    /\ is_nan m = false
    /\ In m (margins current (c :: interior) exterior)
    /\ Forall (fun v => is_nan v = false -> (m <=? v) = true)
         (margins current (c :: interior) exterior).
Proof.
  intros Hfirst. unfold circleMargin, margins. cbn [lookup list_lookup defined bind drop].
  cbv zeta.
  set (inner := fun c0 : Circle float => radius c0 - distance c0 current).
  set (outer := fun c0 : Circle float => distance c0 current - radius c0).
  change (fold_left _ interior (inner c))
    with (fold_left (fun margin c0 => if inner c0 <=? margin then inner c0 else margin)
            interior (inner c)).
  destruct (least_fold inner interior (inner c) Hfirst) as (Hr1 & Hin1 & Hle1 & Hall1).
  cbv zeta in *.
  set (r1 := fold_left _ interior (inner c)) in *.
  change (fold_left _ exterior r1)
    with (fold_left (fun margin c0 => if outer c0 <=? margin then outer c0 else margin)
            exterior r1).
  destruct (least_fold outer exterior r1 Hr1) as (Hr2 & Hin2 & Hle2 & Hall2).
  cbv zeta in *.
  set (r2 := fold_left _ exterior r1) in *.
  exists r2. split; [reflexivity|]. split; [done|]. split.
  - cbn [map app]. destruct Hin2 as [-> | Hin2].
    + destruct Hin1 as [-> | Hin1]; [by left|]. right. apply in_app_iff. by left.
    + right. apply in_app_iff. by right.
  - cbn [map app]. apply List.Forall_cons.
    + intros _. by eapply float_leb_trans.
    + apply Forall_app. split; apply Forall_fmap.
      * eapply Forall_impl; [exact Hall1|]. intros c0 Hc0 Hnan. cbn.
        eapply float_leb_trans; [exact Hle2 | by apply Hc0].
      * exact Hall2.
Qed.

End MarginFacts.

Lemma circleMargin_is_least_witness :
  exists m,
    Diagram.circleMargin (point 0%float 0%float) [Inputs.unitCircle] [Inputs.farCircle]
    = Ok m
    /\ is_nan m = false
    /\ In m (Diagram.margins (point 0%float 0%float) [Inputs.unitCircle]
               [Inputs.farCircle])
    /\ Forall (fun v => is_nan v = false -> (m <=? v)%float = true)
         (Diagram.margins (point 0%float 0%float) [Inputs.unitCircle]
            [Inputs.farCircle]).
Proof.
  apply (circleMargin_is_least (point 0%float 0%float) Inputs.unitCircle []
           [Inputs.farCircle]).
  reflexivity.
Defined.

Section SampleFacts.
Import Diagram.
Local Open Scope float_scope.

Lemma circleMargin_Ok {P : Type} `{HasXY float P} (current : P) (c : Circle float)
  (interior exterior : list (Circle float)) :
  exists m, circleMargin current (c :: interior) exterior = Ok m.
Proof. unfold circleMargin. cbn [lookup list_lookup defined bind]. eauto. Qed.

(** X27: with an interior circle, the sample [bestSample] returns is the
    one it was given or one of the points, and its margin is a number that
    no margin of them exceeds, when the margin it starts from is the margin
    of the sample it was given and a number. *)
Theorem bestSample_is_greatest (c : Circle float)
  (interior exterior : list (Circle float)) (points : list (Point2d float))
  (initial : Point2d float) (margin : float) :
  circleMargin initial (c :: interior) exterior = Ok margin ->
  is_nan margin = false ->
  exists best m,
    bestSample (c :: interior) exterior initial margin points = Ok best
    /\ In best (initial :: points)
    /\ circleMargin best (c :: interior) exterior = Ok m
    /\ is_nan m = false
    /\ Forall (fun p =>
                 forall v, circleMargin p (c :: interior) exterior = Ok v ->
                           is_nan v = false -> (v <=? m) = true)
         (initial :: points).
Proof.
  revert initial margin. induction points as [|p points IH];
    intros initial margin Hmargin Hnan.
  { exists initial, margin. cbn [bestSample]. repeat split; try done; [by left|].
    apply List.Forall_cons; [|apply List.Forall_nil].
    intros v Hv _. assert (v = margin) as -> by congruence. by apply float_leb_refl. }
  cbn [bestSample].
  destruct (circleMargin_Ok p c interior exterior) as [m Hm]. rewrite Hm.
  cbn [bind]. destruct (margin <=? m) eqn:Hle.
  - destruct (float_leb_not_nan _ _ Hle) as [_ Hmnan].
    destruct (IH p m Hm Hmnan) as (best & mb & -> & Hin & Hbest & Hbnan & Hall).
    exists best, mb. repeat split; try done; [by right|].
    apply Forall_cons in Hall as [Hp Hall].
    apply List.Forall_cons; [|by apply List.Forall_cons].
    intros v Hv _. assert (v = margin) as -> by congruence.
    eapply float_leb_trans; [exact Hle | by apply Hp].
  - destruct (IH initial margin Hmargin Hnan)
      as (best & mb & -> & Hin & Hbest & Hbnan & Hall).
    exists best, mb. repeat split; try done.
    { destruct Hin as [<- | Hin]; [by left | right; by right]. }
    apply Forall_cons in Hall as [Hi Hall].
    apply List.Forall_cons; [done|]. apply List.Forall_cons; [|done].
    intros v Hv Hvnan. assert (v = m) as -> by congruence.
    eapply float_leb_trans; [|by apply Hi]. by apply float_leb_total.
Qed.

End SampleFacts.

Lemma bestSample_is_greatest_witness :
  exists best m,
    Diagram.bestSample [Inputs.unitCircle] [] (point 0%float 1%float) 0%float
      [point 0%float 0%float] = Ok best
    /\ In best [point 0%float 1%float; point 0%float 0%float]
    /\ Diagram.circleMargin best [Inputs.unitCircle] [] = Ok m
    /\ is_nan m = false
    /\ Forall (fun p =>
                 forall v, Diagram.circleMargin p [Inputs.unitCircle] [] = Ok v ->
                           is_nan v = false -> (v <=? m)%float = true)
         [point 0%float 1%float; point 0%float 0%float].
Proof.
  apply (bestSample_is_greatest Inputs.unitCircle [] [] [point 0%float 0%float]
           (point 0%float 1%float) 0%float); reflexivity.
Defined.

Section AnchorFacts.
Import Blas1 Diagram.
Local Open Scope float_scope.

Context {T : Trig float}.
Variable SMALL : float.

Lemma bestSample_returns (c : Circle float) (interior exterior : list (Circle float))
  (points : list (Point2d float)) (initial : Point2d float) (margin : float) :
  exists best, bestSample (c :: interior) exterior initial margin points = Ok best.
Proof.
  revert initial margin. induction points as [|p points IH]; intros initial margin;
    cbn [bestSample]; [eauto|].
  destruct (circleMargin_Ok p c interior exterior) as [m ->]. cbn [bind].
  destruct (margin <=? m); apply IH.
Qed.

(** X17: the refinement of the anchor never returns.  With no interior
    circle [circleMargin] reads [interior[0].radius]; with one or more, the
    estimate is found and handed to [nelderMead2d] as a guess of two
    coordinates, which throws before its first round. *)
Theorem refine_never_returns (interior exterior : list (Circle float)) :
  refine interior exterior = TypeError.
Proof.
  destruct interior as [|c interior]; [reflexivity|].
  unfold refine. cbv zeta. cbn [samples flat_map app lookup list_lookup defined bind].
  destruct (circleMargin_Ok (point (x c) (y c)) c interior exterior) as [m ->].
  cbn [bind].
  edestruct (bestSample_returns c interior exterior) as [initial ->].
  cbn [bind]. by rewrite NelderMead_nelderMead2d_throws.
Qed.


End AnchorFacts.

(** ** Circles within circles *)

Section OverlapFacts.
Import Diagram.
Local Open Scope float_scope.

Lemma push_keys (key value : string) (ret : Dict (list string)) :
  map fst (push key value ret) = map fst ret.
Proof.
  unfold push. rewrite map_map. apply map_ext. intros entry.
  by destruct (String.eqb (fst entry) key).
Qed.

Lemma get_push (key value k : string) (ret : Dict (list string)) :
  get k (push key value ret)
  = (fun l => if String.eqb k key then l ++ [value] else l) <$> get k ret.
Proof.
  unfold get, push. induction ret as [|[id l] ret IH]; [reflexivity|].
  cbn [map find fst snd].
  destruct (String.eqb_spec id key) as [-> | Hkey]; cbn [fst snd].
  - destruct (String.eqb_spec key k) as [-> | Hk]; [|exact IH].
    cbn. by rewrite String.eqb_refl.
  - destruct (String.eqb_spec id k) as [-> | Hk]; [|exact IH].
    cbn. destruct (String.eqb_spec k key); [congruence | reflexivity].
Qed.

(** What one round of the inner loop appends to the list of [k]. *)
Lemma overlapStep_get (a b : string * Circle float) (k : string) :
  exists extra,
    (forall ret, get k (overlapStep a ret b) = (fun l => l ++ extra) <$> get k ret)
    /\ forall x, In x extra <->
         (k = fst b /\ x = fst a /\ within (snd a) (snd b) = true)
         \/ (k = fst a /\ x = fst b /\ around (snd a) (snd b) = true).
Proof.
  assert (forall o : option (list string),
             o = (fun l => l ++ []) <$> o
             /\ (fun l => l) <$> o = (fun l => l ++ []) <$> o) as Hnone.
  { intros [l|]; cbn; by rewrite ?app_nil_r. }
  unfold overlapStep, around, within. cbv zeta.
  destruct (_ <=? radius (snd a) + 1e-10) eqn:Hwithin; cbn [negb andb].
  - destruct (String.eqb_spec k (fst b)) as [-> | Hk].
    + exists [fst a]. split.
      * intros ret. rewrite get_push. by rewrite String.eqb_refl.
      * intros x. cbn. split; [intros [<- | []]; by left|].
        intros [(_ & -> & _) | (_ & _ & ?)]; [by left | done].
    + exists []. split.
      * intros ret. rewrite get_push.
        destruct (String.eqb_spec k (fst b)); [done | apply Hnone].
      * intros x. cbn. split; [done|].
        intros [(? & _) | (_ & _ & ?)]; done.
  - destruct (_ <=? radius (snd b) + 1e-10) eqn:Haround.
    + destruct (String.eqb_spec k (fst a)) as [-> | Hk].
      * exists [fst b]. split.
        -- intros ret. rewrite get_push. by rewrite String.eqb_refl.
        -- intros x. cbn. split; [intros [<- | []]; by right|].
           intros [(_ & _ & ?) | (_ & -> & _)]; [done | by left].
      * exists []. split.
        -- intros ret. rewrite get_push.
           destruct (String.eqb_spec k (fst a)); [done | apply Hnone].
        -- intros x. cbn. split; [done|].
           intros [(_ & _ & ?) | (? & _)]; done.
    + exists []. split; [intros ret; apply Hnone|].
      intros x. cbn. split; [done|].
      intros [(_ & _ & ?) | (_ & _ & ?)]; done.
Qed.

Lemma overlapStep_keys (a b : string * Circle float) (ret : Dict (list string)) :
  map fst (overlapStep a ret b) = map fst ret.
Proof.
  unfold overlapStep. cbv zeta.
  destruct (_ <=? _); [apply push_keys|].
  destruct (_ <=? _); [apply push_keys | reflexivity].
Qed.

(** What the inner loop for the circle [a] appends to the list of [k]. *)
Lemma overlapRow_get (a : string * Circle float) (rest : Dict (Circle float))
  (k : string) :
  exists row,
    (forall ret,
        get k (fold_left (overlapStep a) rest ret) = (fun l => l ++ row) <$> get k ret)
    /\ forall x, In x row <->
         exists b, In b rest
           /\ ((k = fst b /\ x = fst a /\ within (snd a) (snd b) = true)
               \/ (k = fst a /\ x = fst b /\ around (snd a) (snd b) = true)).
Proof.
  induction rest as [|b rest (row & Hrow & Hin)].
  { exists []. split.
    - intros ret. cbn [fold_left]. destruct (get k ret); cbn; by rewrite ?app_nil_r.
    - intros x. cbn. split; [done | by intros (b & [] & _)]. }
  destruct (overlapStep_get a b k) as (extra & Hextra & Hinx).
  exists (extra ++ row). split.
  - intros ret. cbn [fold_left]. rewrite Hrow, Hextra.
    destruct (get k ret); cbn; [|done]. by rewrite app_assoc.
  - intros x. rewrite in_app_iff, Hinx, Hin. split.
    + intros [H | (b' & Hb' & H)]; [exists b | exists b']; cbn; auto.
    + intros (b' & [<- | Hb'] & H); [by left | right; by exists b'].
Qed.

Lemma overlapRow_keys (a : string * Circle float) (rest : Dict (Circle float))
  (ret : Dict (list string)) :
  map fst (fold_left (overlapStep a) rest ret) = map fst ret.
Proof.
  revert ret. induction rest as [|b rest IH]; intros ret; [reflexivity|].
  cbn [fold_left]. by rewrite IH, overlapStep_keys.
Qed.

Lemma overlapLoop_keys (circles : Dict (Circle float)) (ret : Dict (list string)) :
  map fst (overlapLoop circles ret) = map fst ret.
Proof.
  revert ret. induction circles as [|a rest IH]; intros ret; [reflexivity|].
  cbn [overlapLoop]. by rewrite IH, overlapRow_keys.
Qed.

Lemma listed_cons (a : string * Circle float) (rest : Dict (Circle float))
  (k x : string) :
  listed (a :: rest) k x <->
  (exists b, In b rest
     /\ ((k = fst b /\ x = fst a /\ within (snd a) (snd b) = true)
         \/ (k = fst a /\ x = fst b /\ around (snd a) (snd b) = true)))
  \/ listed rest k x.
Proof.
  split.
  - intros (p & q & ea & eb & Hpq & Hp & Hq & H).
    destruct q as [|q]; [lia|]. cbn in Hq. destruct p as [|p]; cbn in Hp.
    + injection Hp as <-. left. exists eb. split; [|done].
      apply list_elem_of_In. by eapply list_elem_of_lookup_2.
    + right. exists p, q, ea, eb. split; [lia | done].
  - intros [(b & Hb & H) | (p & q & ea & eb & Hpq & Hp & Hq & H)].
    + apply list_elem_of_In, list_elem_of_lookup_1 in Hb as [q Hq].
      exists 0%nat, (S q), a, b. split; [lia | done].
    + exists (S p), (S q), ea, eb. split; [lia | done].
Qed.

Lemma overlapLoop_get (circles : Dict (Circle float)) (k : string) :
  exists added,
    (forall ret,
        get k (overlapLoop circles ret) = (fun l => l ++ added) <$> get k ret)
    /\ forall x, In x added <-> listed circles k x.
Proof.
  induction circles as [|a rest (added & Hadded & Hin)].
  { exists []. split.
    - intros ret. cbn [overlapLoop]. destruct (get k ret); cbn; by rewrite ?app_nil_r.
    - intros x. split; [done|].
      intros (p & q & ea & eb & _ & Hp & _). by destruct p. }
  destruct (overlapRow_get a rest k) as (row & Hrow & Hinrow).
  exists (row ++ added). split.
  - intros ret. cbn [overlapLoop]. rewrite Hadded, Hrow.
    destruct (get k ret); cbn; [|done]. by rewrite app_assoc.
  - intros x. by rewrite in_app_iff, listed_cons, Hinrow, Hin.
Qed.

Lemma get_empty_lists (circles : Dict (Circle float)) (k : string) :
  get k (map (fun entry => (fst entry, @nil string)) circles)
  = (fun _ => []) <$> get k circles.
Proof.
  unfold get. induction circles as [|[id c] circles IH]; [reflexivity|].
  cbn [map find fst snd]. by destruct (String.eqb id k).
Qed.

(** X20: [getOverlappingCircles] returns a dictionary with the ids of
    [circles], in their order; the list of an id [k] holds exactly the ids
    [x] such that, of the two circles, the one enumerated later lies within
    the other up to 1e-10 ([x] around [k]), the pair being tested once, with
    the earlier circle as the outer one first. *)
Theorem getOverlappingCircles_spec (circles : Dict (Circle float)) :
  map fst (getOverlappingCircles circles) = map fst circles
  /\ forall k,
       match get k circles, get k (getOverlappingCircles circles) with
       | Some _, Some l => forall x, In x l <-> listed circles k x
       | None, None => True
       | _, _ => False
       end.
Proof.
  unfold getOverlappingCircles. cbv zeta. split.
  - rewrite overlapLoop_keys, map_map. by apply map_ext.
  - intros k. destruct (overlapLoop_get circles k) as (added & -> & Hin).
    rewrite get_empty_lists. destruct (get k circles); cbn; [|done].
    exact Hin.
Qed.

Lemma get_lookup {A : Type} (dict : Dict A) (i : nat) (id : string) (v : A) :
  dict !! i = Some (id, v) -> is_Some (get id dict).
Proof.
  revert i. unfold get. induction dict as [|[id' v'] dict IH]; intros i Hi;
    [by destruct i|].
  cbn [find fst]. destruct (String.eqb_spec id' id) as [|Hne]; [cbn; eauto|].
  destruct i as [|i]; cbn in Hi; [|by eapply IH].
  congruence.
Qed.

Lemma keys_distinct {A : Type} (dict : Dict A) (p q : nat) (e e' : string * A) :
  NoDup (map fst dict) -> dict !! p = Some e -> dict !! q = Some e' ->
  fst e = fst e' -> p = q.
Proof.
  intros Hnodup Hp Hq Hkey.
  apply (NoDup_lookup (map fst dict) p q (fst e) Hnodup).
  - by apply (list_lookup_fmap_Some_2 fst).
  - rewrite Hkey. by apply (list_lookup_fmap_Some_2 fst).
Qed.

(** X21: for circles with distinct ids, of which [ida] is enumerated before
    [idb]: [ida] is listed for [idb] exactly when the circle of [idb] lies
    within that of [ida] (up to 1e-10), [idb] is listed for [ida] exactly
    when the circle of [ida] lies within that of [idb] and not the other
    way round, so that never both hold (of two equal circles the later one
    is within the earlier), and no id is listed for itself. *)
Theorem getOverlappingCircles_pair (circles : Dict (Circle float)) (i j : nat)
  (ida idb : string) (a b : Circle float) :
  NoDup (map fst circles) -> (i < j)%nat ->
  circles !! i = Some (ida, a) -> circles !! j = Some (idb, b) ->
  exists la lb,
    get ida (getOverlappingCircles circles) = Some la
    /\ get idb (getOverlappingCircles circles) = Some lb
    /\ (In ida lb <-> within a b = true)
    /\ (In idb la <-> around a b = true)
    /\ ~ In ida la /\ ~ In idb lb.
Proof.
  intros Hnodup Hij Hi Hj.
  destruct (getOverlappingCircles_spec circles) as [_ Hspec].
  pose proof (Hspec ida) as Ha. pose proof (Hspec idb) as Hb.
  destruct (get_lookup circles i ida a Hi) as [? Hga].
  destruct (get_lookup circles j idb b Hj) as [? Hgb].
  rewrite Hga in Ha. rewrite Hgb in Hb.
  destruct (get ida (getOverlappingCircles circles)) as [la|]; [|done].
  destruct (get idb (getOverlappingCircles circles)) as [lb|]; [|done].
  assert (forall p e, circles !! p = Some e -> fst e = ida -> p = i /\ e = (ida, a))
    as Hida.
  { intros p e Hp He.
    assert (p = i) as -> by (by eapply (keys_distinct circles)).
    split; congruence. }
  assert (forall p e, circles !! p = Some e -> fst e = idb -> p = j /\ e = (idb, b))
    as Hidb.
  { intros p e Hp He.
    assert (p = j) as -> by (by eapply (keys_distinct circles)).
    split; congruence. }
  exists la, lb. repeat split; try done.
  - intros Hin. apply Hb in Hin as (p & q & ea & eb & Hpq & Hp & Hq & H).
    destruct H as [(Hk & Hx & Hw) | (Hk & Hx & Hw)].
    + destruct (Hida p ea Hp (eq_sym Hx)) as [-> ->].
      destruct (Hidb q eb Hq (eq_sym Hk)) as [-> ->]. exact Hw.
    + destruct (Hidb p ea Hp (eq_sym Hk)) as [-> ->].
      destruct (Hida q eb Hq (eq_sym Hx)) as [-> ->]. lia.
  - intros Hw. apply Hb. exists i, j, (ida, a), (idb, b). split; [done|].
    split; [done|]. split; [done|]. by left.
  - intros Hin. apply Ha in Hin as (p & q & ea & eb & Hpq & Hp & Hq & H).
    destruct H as [(Hk & Hx & Hw) | (Hk & Hx & Hw)].
    + destruct (Hidb p ea Hp (eq_sym Hx)) as [-> ->].
      destruct (Hida q eb Hq (eq_sym Hk)) as [-> ->]. lia.
    + destruct (Hida p ea Hp (eq_sym Hk)) as [-> ->].
      destruct (Hidb q eb Hq (eq_sym Hx)) as [-> ->]. exact Hw.
  - intros Hw. apply Ha. exists i, j, (ida, a), (idb, b). split; [done|].
    split; [done|]. split; [done|]. by right.
  - intros Hin. apply Ha in Hin as (p & q & ea & eb & Hpq & Hp & Hq & H).
    destruct H as [(Hk & Hx & _) | (Hk & Hx & _)].
    + destruct (Hida p ea Hp (eq_sym Hx)) as [-> _].
      destruct (Hida q eb Hq (eq_sym Hk)) as [-> _]. lia.
    + destruct (Hida p ea Hp (eq_sym Hk)) as [-> _].
      destruct (Hida q eb Hq (eq_sym Hx)) as [-> _]. lia.
  - intros Hin. apply Hb in Hin as (p & q & ea & eb & Hpq & Hp & Hq & H).
    destruct H as [(Hk & Hx & _) | (Hk & Hx & _)].
    + destruct (Hidb p ea Hp (eq_sym Hx)) as [-> _].
      destruct (Hidb q eb Hq (eq_sym Hk)) as [-> _]. lia.
    + destruct (Hidb p ea Hp (eq_sym Hk)) as [-> _].
      destruct (Hidb q eb Hq (eq_sym Hx)) as [-> _]. lia.
Qed.

End OverlapFacts.

Lemma getOverlappingCircles_pair_witness :
  exists la lb,
    Diagram.get "B" (Diagram.getOverlappingCircles
                       [("A", Inputs.big); ("B", Inputs.small)]%string) = Some la
    /\ Diagram.get "A" (Diagram.getOverlappingCircles
                          [("A", Inputs.big); ("B", Inputs.small)]%string) = Some lb
    /\ la = ["A"%string] /\ lb = [].
Proof.
  destruct (getOverlappingCircles_pair
              [("A", Inputs.big); ("B", Inputs.small)]%string 0 1 "A" "B"
              Inputs.big Inputs.small)
    as (la & lb & Hla & Hlb & _); [| lia | reflexivity | reflexivity |].
  { apply NoDup_cons_2; [|apply NoDup_cons_2; [|apply NoDup_nil_2]].
    - intros [H|H]%elem_of_cons; [discriminate | by apply elem_of_nil in H].
    - apply not_elem_of_nil. }
  exists lb, la. split; [exact Hlb|]. split; [exact Hla|].
  vm_compute in Hla, Hlb. split; congruence.
Defined.

(** ** The chart *)

Section ChartFacts.
Import Diagram Chart.

Variable inherited : string -> bool.

Lemma get_app_fresh {A : Type} (dict : Dict A) (key k : string) (v : A) :
  get k dict = None ->
  get k (dict ++ [(key, v)]) = if String.eqb key k then Some v else None.
Proof.
  unfold get. induction dict as [|[id w] dict IH]; cbn [app find fst]; [|].
  - intros _. by destruct (String.eqb key k).
  - destruct (String.eqb id k); [done | exact IH].
Qed.

Lemma get_app_other {A : Type} (dict : Dict A) (key k : string) (v : A) :
  k <> key -> get k (dict ++ [(key, v)]) = get k dict.
Proof.
  intros Hk. unfold get. induction dict as [|[id w] dict IH]; cbn [app find fst].
  - destruct (String.eqb_spec key k); [congruence | done].
  - destruct (String.eqb id k); [done | exact IH].
Qed.

(** X23: [colours] gives a stable answer: asking again for the key just
    asked gives the same value and changes neither [colourMap] nor
    [colourIndex]; a call changes the value of no other key; and
    [colourIndex] stays below the length of the scheme. *)
Theorem colours_stable (s : Palette) (key : string) :
  colours inherited (snd (colours inherited s key)) key = colours inherited s key
  /\ (forall k, k <> key ->
        get k (colourMap (snd (colours inherited s key))) = get k (colourMap s))
  /\ ((colourIndex s < 10)%nat ->
      (colourIndex (snd (colours inherited s key)) < 10)%nat).
Proof.
  unfold colours. cbv zeta.
  destruct (get key (colourMap s)) as [c|] eqn:Hown.
  { cbn [snd]. by rewrite Hown. }
  destruct (inherited key) eqn:Hinh.
  { cbn [snd]. by rewrite Hown. }
  cbn [snd colourMap colourIndex]. split; [|split].
  - by rewrite (get_app_fresh _ key key _ Hown), String.eqb_refl.
  - intros k Hk. by apply get_app_other.
  - intros Hlt. destruct (Nat.leb_spec (length colourScheme) (colourIndex s + 1));
      cbn in *; lia.
Qed.

Lemma paint_from (keys : list string) (s : Palette) :
  NoDup keys ->
  Forall (fun k => inherited k = false /\ get k (colourMap s) = None) keys ->
  (colourIndex s < 10)%nat ->
  fst (paint inherited s keys)
  = imap (fun i _ => Colour (colourScheme !! ((colourIndex s + i) mod 10)%nat)) keys.
Proof.
  revert s. induction keys as [|key keys IH]; intros s Hnodup Hkeys Hlt;
    [reflexivity|].
  apply NoDup_cons in Hnodup as [Hfresh Hnodup].
  apply Forall_cons in Hkeys as [[Hinh Hown] Hkeys].
  cbn [paint imap]. unfold colours at 1. cbv zeta. rewrite Hown, Hinh.
  match goal with
  | |- context [paint inherited ?s1 keys] =>
      specialize (IH s1 Hnodup); destruct (paint inherited s1 keys) as [cs s2]
  end.
  cbn [fst colourIndex colourMap] in *. f_equal.
  - by rewrite Nat.add_0_r, Nat.mod_small.
  - rewrite IH.
    + apply imap_ext. intros i k _. cbn [compose]. do 2 f_equal.
      destruct (Nat.leb_spec (length colourScheme) (colourIndex s + 1));
        cbn [length colourScheme] in *.
      * assert (colourIndex s = 9)%nat as -> by lia.
        replace (9 + S i)%nat with (i + 1 * 10)%nat by lia.
        by rewrite Nat.Div0.mod_add.
      * f_equal. lia.
    + apply Forall_forall. intros k Hk.
      rewrite Forall_forall in Hkeys. destruct (Hkeys k Hk) as [Hik Hgk].
      split; [done|]. rewrite get_app_other; [done|]. by intros ->.
    + destruct (Nat.leb_spec (length colourScheme) (colourIndex s + 1));
        cbn [length colourScheme] in *; lia.
Qed.

(** X24: the colours go round the scheme: asked for keys that are distinct
    and not inherited, the closure as [VennDiagram] creates it gives the
    [i]-th of them the colour at index [i mod 10] of the scheme. *)
Theorem paint_round_robin (keys : list string) :
  NoDup keys -> Forall (fun k => inherited k = false) keys ->
  fst (paint inherited freshPalette keys)
  = imap (fun i _ => Colour (colourScheme !! (i mod 10)%nat)) keys.
Proof.
  intros Hnodup Hkeys. rewrite paint_from; [done | done | | cbn; lia].
  eapply Forall_impl; [exact Hkeys|]. by intros k Hk.
Qed.

Lemma toremove_In (data : list Datum) (set : string) :
  In set (toremove data) <->
  exists datum, In datum data /\ sets datum = [set] /\ (size datum =? 0)%float = true.
Proof.
  unfold toremove. rewrite in_flat_map. split.
  - intros (datum & Hin & Hset). exists datum. split; [done|].
    destruct (size datum =? 0)%float; [|done].
    destruct (sets datum) as [|s0 [|s1 rest]]; cbn in Hset; try done.
    destruct Hset as [-> | []]. done.
  - intros (datum & Hin & Hsets & Hsize). exists datum. split; [done|].
    rewrite Hsize, Hsets. cbn. by left.
Qed.

Lemma withoutEmptySets_kept (data : list Datum) (datum : Datum) :
  In datum (withoutEmptySets inherited data) <->
  In datum data /\ forall set, In set (sets datum) -> removed inherited data set = false.
Proof.
  unfold withoutEmptySets. rewrite filter_In, negb_true_iff. split.
  - intros [Hin Hnone]. split; [done|]. intros set Hset.
    destruct (removed inherited data set) eqn:Hrem; [|done].
    rewrite <- Hnone. symmetry. apply existsb_exists. by exists set.
  - intros [Hin Hnone]. split; [done|]. apply not_true_is_false.
    intros (set & Hset & Hrem)%existsb_exists. by rewrite Hnone in Hrem.
Qed.

Lemma removed_In (data : list Datum) (set : string) :
  removed inherited data set = true <->
  In set (toremove data) \/ inherited set = true.
Proof.
  unfold removed. rewrite orb_true_iff, existsb_exists. split.
  - intros [(s & Hs & Heq) | H]; [left | by right].
    by apply String.eqb_eq in Heq as ->.
  - intros [H | H]; [left | by right]. exists set. by rewrite String.eqb_refl.
Qed.

(** X25: after the sets of size 0 are removed, the areas that are left are
    areas of the input in their order, none of them names a set that has an
    area of its own of size 0 (nor a name all objects inherit), every other
    area is kept, and removing again changes nothing. *)
Theorem withoutEmptySets_spec (data : list Datum) :
  (forall datum,
      In datum (withoutEmptySets inherited data) <->
      In datum data
      /\ forall set, In set (sets datum) ->
           inherited set = false
           /\ ~ exists empty, In empty data /\ sets empty = [set]
                              /\ (size empty =? 0)%float = true)
  /\ withoutEmptySets inherited (withoutEmptySets inherited data)
     = withoutEmptySets inherited data.
Proof.
  split.
  - intros datum. rewrite withoutEmptySets_kept. split.
    + intros [Hin Hnone]. split; [done|]. intros set Hset.
      specialize (Hnone set Hset). split.
      * destruct (inherited set) eqn:H; [|done].
        assert (removed inherited data set = true) by (apply removed_In; by right).
        congruence.
      * intros Hempty. apply toremove_In in Hempty.
        assert (removed inherited data set = true) by (apply removed_In; by left).
        congruence.
    + intros [Hin Hnone]. split; [done|]. intros set Hset.
      destruct (Hnone set Hset) as [Hinh Hempty].
      apply not_true_is_false. intros [H | H]%removed_In; [|congruence].
      by apply Hempty, toremove_In.
  - set (kept := withoutEmptySets inherited data).
    unfold withoutEmptySets at 1. fold kept.
    rewrite <- (filter_ext_in (fun _ => true)); [by rewrite filter_true|].
    intros datum Hkept. symmetry. apply negb_true_iff, not_true_is_false.
    intros (set & Hset & Hrem)%existsb_exists.
    apply withoutEmptySets_kept in Hkept as Hkept'. destruct Hkept' as [Hin Hnone].
    specialize (Hnone set Hset).
    apply removed_In in Hrem as [Hrem | Hrem].
    + apply toremove_In in Hrem as (empty & Hempty & Hsets & Hsize).
      apply withoutEmptySets_kept in Hempty as [Hempty Hclean].
      specialize (Hclean set). rewrite Hsets in Hclean.
      assert (removed inherited data set = true) as Hyes.
      { apply removed_In. left. apply toremove_In. by exists empty. }
      rewrite Hclean in Hyes; [done | by left].
    + assert (removed inherited data set = true) by (apply removed_In; by right).
      congruence.
Qed.

End ChartFacts.

Lemma paint_round_robin_witness :
  fst (Chart.paint (fun _ => false) Chart.freshPalette ["A"; "B"]%string)
  = [Chart.Colour (Some "#1f77b4"%string); Chart.Colour (Some "#ff7f0e"%string)].
Proof.
  apply (paint_round_robin (fun _ => false) ["A"; "B"]%string).
  - apply NoDup_cons_2; [|apply NoDup_cons_2; [|apply NoDup_nil_2]].
    + intros [H|H]%elem_of_cons; [discriminate | by apply elem_of_nil in H].
    + apply not_elem_of_nil.
  - by repeat apply List.Forall_cons.
Defined.
